(** * Course-plan resolver: a shallow embedding of [determineMajorPlan]

    The development embeds the TypeScript resolver (course types, the
    insertion-ordered [Map] of taken courses, the prerequisite evaluator
    and the fixed-point loop) and proves the properties its design
    document states about it. *)

From Stdlib Require Import ZArith String Ascii List ListDec Bool Arith Lia.
From Stdlib Require Import Permutation Relations.
From Stdlib Require Import DecimalString DecimalPos DecimalZ.
From Equations Require Import Equations.
Import ListNotations.

Local Open Scope string_scope.
Local Open Scope list_scope.

(* ===================================================================== *)
(** ** courseTypes.ts *)
(* ===================================================================== *)

(** [interface CourseInfo { classId: number; subject: String }].
    [classId] is an integer; the embedding covers the integers that
    JavaScript prints in plain decimal notation. *)
Record CourseInfo : Type := mkCourseInfo {
  classId : Z;
  subject : string
}.

(** [enum PreReqType { AND = "and", OR = "or" }].  At run time the tag
    is the string found in the parsed JSON, so the evaluator still has a
    branch for any other tag. *)
Definition PreReqType : Type := string.
Definition AND : PreReqType := "and".
Definition OR : PreReqType := "or".

(** [interface PreReq { type; values }] and
    [type PreReqValue = CourseInfo | PreReq]. *)
Inductive PreReq : Type :=
| mkPreReq (type : PreReqType) (values : list PreReqValue)
with PreReqValue : Type :=
| InfoValue (course : CourseInfo)
| PreReqNode (preReq : PreReq).

Definition type (p : PreReq) : PreReqType :=
  match p with mkPreReq t _ => t end.

Definition values (p : PreReq) : list PreReqValue :=
  match p with mkPreReq _ vs => vs end.

(** [interface Course extends CourseInfo { prereqs: PreReq }]. *)
Record Course : Type := mkCourse {
  info :> CourseInfo;
  prereqs : PreReq
}.

(** [type CourseUID = string]. *)
Definition CourseUID : Type := string.

(* ===================================================================== *)
(** ** The JavaScript [Map<CourseUID, Course>]

    A [Map] iterates in insertion order and [set] on a key that is
    already present replaces the value where it stands.  It is modelled
    as an association list in insertion order. *)
(* ===================================================================== *)

Module JSMap.

Definition t : Type := list (CourseUID * Course).

Definition empty : t := [].

Definition has (k : CourseUID) (m : t) : bool :=
  existsb (fun e => String.eqb (fst e) k) m.

Fixpoint set (k : CourseUID) (v : Course) (m : t) : t :=
  match m with
  | [] => [(k, v)]
  | (k', v') :: rest =>
      if String.eqb k' k then (k, v) :: rest else (k', v') :: set k v rest
  end.

Definition size (m : t) : nat := length m.

Definition keys (m : t) : list CourseUID := map fst m.

Definition values (m : t) : list Course := map snd m.

End JSMap.

(* ===================================================================== *)
(** ** Completions: a normal value or a thrown [Error] *)
(* ===================================================================== *)

Record Error : Type := mkError { message : string }.

Inductive Completion (A : Type) : Type :=
| Normal (a : A)
| Throw (e : Error).
Arguments Normal {A} a.
Arguments Throw {A} e.

(** [Array.prototype.every]: stops at the first callback result that is
    false; an exception of the callback propagates. *)
Definition every {A : Type} (cb : A -> Completion bool)
  : list A -> Completion bool :=
  fix go (l : list A) : Completion bool :=
    match l with
    | [] => Normal true
    | x :: rest =>
        match cb x with
        | Normal true => go rest
        | Normal false => Normal false
        | Throw e => Throw e
        end
    end.

(** [Array.prototype.some]: stops at the first callback result that is
    true; an exception of the callback propagates. *)
Definition some {A : Type} (cb : A -> Completion bool)
  : list A -> Completion bool :=
  fix go (l : list A) : Completion bool :=
    match l with
    | [] => Normal false
    | x :: rest =>
        match cb x with
        | Normal true => Normal true
        | Normal false => go rest
        | Throw e => Throw e
        end
    end.

(* ===================================================================== *)
(** ** The helper functions of the resolver *)
(* ===================================================================== *)

(** The template literal prints a number in decimal. *)
Definition number_to_string (n : Z) : string :=
  NilZero.string_of_int (Z.to_int n).

(** [getCourseUID]: [`${course.subject}${course.classId}`]. *)
Definition getCourseUID (course : CourseInfo) : CourseUID :=
  (subject course ++ number_to_string (classId course))%string.

(** [isCourseTaken]. *)
Definition isCourseTaken (course : CourseInfo) (takenCoursesMap : JSMap.t)
  : bool :=
  JSMap.has (getCourseUID course) takenCoursesMap.

(** [isCourseInfo]: the type guard; a [CourseInfo] value is the one that
    carries [classId] and [subject]. *)
Definition isCourseInfo (prereqValue : PreReqValue) : bool :=
  match prereqValue with
  | InfoValue _ => true
  | PreReqNode _ => false
  end.

Definition unexpected_structure : Error :=
  mkError "Unexpected prereq structure.".

(** [isPreReqSatisfied] and [isPrereqValueTaken].  The two branches of
    [isPrereqValueTaken] are the two outcomes of the type guard
    [isCourseInfo], which narrows the value to a [CourseInfo] or to a
    [PreReq]. *)
Fixpoint isPreReqSatisfied (preReq : PreReq) (takenCoursesMap : JSMap.t)
  {struct preReq} : Completion bool :=
  match preReq with
  | mkPreReq ty vs =>
      let checkPrereqValue := fun prereqValue =>
        isPrereqValueTaken prereqValue takenCoursesMap in
      if String.eqb ty AND then every checkPrereqValue vs
      else if String.eqb ty OR then some checkPrereqValue vs
      else Throw unexpected_structure
  end
with isPrereqValueTaken (prereqValue : PreReqValue)
  (takenCoursesMap : JSMap.t) {struct prereqValue} : Completion bool :=
  match prereqValue with
  | InfoValue course => Normal (isCourseTaken course takenCoursesMap)
  | PreReqNode preReq => isPreReqSatisfied preReq takenCoursesMap
  end.

(* ===================================================================== *)
(** ** [determineMajorPlan] *)
(* ===================================================================== *)

(** Code that reads and updates the taken-courses map and may throw. *)
Definition Eff (A : Type) : Type := JSMap.t -> Completion (A * JSMap.t).

Definition ret {A : Type} (a : A) : Eff A := fun m => Normal (a, m).

Definition bind {A B : Type} (c : Eff A) (k : A -> Eff B) : Eff B :=
  fun m =>
    match c m with
    | Normal (a, m') => k a m'
    | Throw e => Throw e
    end.

Notation "x <- c ;; k" := (bind c (fun x => k))
  (at level 61, c at next level, right associativity).

(** [Array.prototype.filter] with a callback that has effects: the
    callback runs on the elements in order. *)
Fixpoint array_filter {A : Type} (cb : A -> Eff bool) (l : list A)
  : Eff (list A) :=
  match l with
  | [] => ret []
  | x :: rest =>
      keep <- cb x ;;
      kept <- array_filter cb rest ;;
      ret (if keep then x :: kept else kept)
  end.

(** The arrow function given to [courses.filter]. *)
Definition filter_callback (course : Course) : Eff bool :=
  fun takenCoursesMap =>
    match isPreReqSatisfied (prereqs course) takenCoursesMap with
    | Normal true =>
        let courseUID := getCourseUID course in
        Normal (false, JSMap.set courseUID course takenCoursesMap)
    | Normal false => Normal (true, takenCoursesMap)
    | Throw e => Throw e
    end.

(** The closure [areAllCoursesTaken]. *)
Definition areAllCoursesTaken (coursesAmount : nat)
  (takenCoursesMap : JSMap.t) : bool :=
  Nat.eqb (JSMap.size takenCoursesMap) coursesAmount.

(** The variables the [while] loop reads and writes. *)
Record LoopState : Type := mkLoopState {
  courses : list Course;
  takenCoursesMap : JSMap.t;
  solutionIsPossible : bool
}.

Definition loop_cond (coursesAmount : nat) (st : LoopState) : bool :=
  negb (areAllCoursesTaken coursesAmount (takenCoursesMap st))
  && solutionIsPossible st.

Definition loop_body (st : LoopState) : Completion LoopState :=
  match array_filter filter_callback (courses st) (takenCoursesMap st) with
  | Normal (remainingCourses, m) =>
      Normal {| courses := remainingCourses;
                takenCoursesMap := m;
                solutionIsPossible :=
                  Nat.ltb (length remainingCourses) (length (courses st)) |}
  | Throw e => Throw e
  end.

(** The loop runs while a solution is possible, and every round that
    keeps it possible shortens [courses]. *)
Definition loop_measure (st : LoopState) : nat :=
  if solutionIsPossible st then S (length (courses st)) else 0.

(** Matching on a value while keeping the equation that names it. *)
Definition inspect {A : Type} (x : A) : {y : A | x = y} :=
  exist _ x eq_refl.

Equations while_loop (coursesAmount : nat) (st : LoopState)
  : Completion LoopState by wf (loop_measure st) lt :=
  while_loop coursesAmount st with inspect (loop_cond coursesAmount st) := {
    | exist _ true Hcond with inspect (loop_body st) := {
        | exist _ (Normal st') Hbody => while_loop coursesAmount st'
        | exist _ (Throw e) _ => Throw e }
    | exist _ false _ => Normal st }.
Next Obligation.
  unfold loop_cond, loop_body, loop_measure in *.
  apply andb_true_iff in Hcond as [_ ->].
  destruct (array_filter _ _ _) as [[r m]|e]; [|discriminate].
  destruct (Nat.ltb (length r) (length (courses st))) eqn:E;
    injection Hbody as <-; simpl; [apply Nat.ltb_lt in E|]; lia.
Qed.

(** [determineMajorPlan]: [Normal (Some plan)] is a returned plan,
    [Normal None] is the returned [null].  The parameter [courses] is
    reassigned by the loop, so it is a field of the loop state. *)
Definition determineMajorPlan (courses0 : list Course)
  : Completion (option (list Course)) :=
  let coursesAmount := length courses0 in
  let st0 := {| courses := courses0;
                takenCoursesMap := JSMap.empty;
                solutionIsPossible := true |} in
  match while_loop coursesAmount st0 with
  | Normal st =>
      if solutionIsPossible st
      then Normal (Some (JSMap.values (takenCoursesMap st)))
      else Normal None
  | Throw e => Throw e
  end.

(** [rounds n st k r]: started in [st], the loop executes its body [k]
    times and then completes with [r] (the state at exit, or the error
    thrown by the last round). *)
Inductive rounds (coursesAmount : nat)
  : LoopState -> nat -> Completion LoopState -> Prop :=
| rounds_exit st :
    loop_cond coursesAmount st = false ->
    rounds coursesAmount st 0 (Normal st)
| rounds_throw st e :
    loop_cond coursesAmount st = true ->
    loop_body st = Throw e ->
    rounds coursesAmount st 1 (Throw e)
| rounds_next st st' k r :
    loop_cond coursesAmount st = true ->
    loop_body st = Normal st' ->
    rounds coursesAmount st' k r ->
    rounds coursesAmount st (S k) r.


(* ===================================================================== *)
(** ** Vocabulary of the specification *)
(* ===================================================================== *)

(** Every combinator tag in the tree is ["and"] or ["or"]. *)
Fixpoint well_formed (p : PreReq) : bool :=
  match p with
  | mkPreReq ty vs =>
      (String.eqb ty AND || String.eqb ty OR)
      && forallb (fun v => match v with
                           | InfoValue _ => true
                           | PreReqNode q => well_formed q
                           end) vs
  end.

(** No ["or"] node of the tree has an empty child list. *)
Fixpoint no_empty_any (p : PreReq) : bool :=
  match p with
  | mkPreReq ty vs =>
      negb (String.eqb ty OR && match vs with [] => true | _ => false end)
      && forallb (fun v => match v with
                           | InfoValue _ => true
                           | PreReqNode q => no_empty_any q
                           end) vs
  end.

(** The courses a prerequisite tree references at its leaves. *)
Fixpoint leaves (p : PreReq) : list CourseInfo :=
  match p with
  | mkPreReq _ vs =>
      flat_map (fun v => match v with
                         | InfoValue c => [c]
                         | PreReqNode q => leaves q
                         end) vs
  end.

(** The leaves that are reached through ["and"] nodes only. *)
Fixpoint required_leaves (p : PreReq) : list CourseInfo :=
  match p with
  | mkPreReq ty vs =>
      if String.eqb ty AND
      then flat_map (fun v => match v with
                              | InfoValue c => [c]
                              | PreReqNode q => required_leaves q
                              end) vs
      else []
  end.

(** Evaluation of [p] raises on no taken-courses map. *)
Definition never_raises (p : PreReq) : Prop :=
  forall m e, isPreReqSatisfied p m <> Throw e.

(** Every key of [S] is a key of [T]. *)
Definition keys_included (S T : JSMap.t) : Prop :=
  forall k, JSMap.has k S = true -> JSMap.has k T = true.

(** The UIDs of the courses of a list. *)
Definition uids (cs : list Course) : list CourseUID :=
  map (fun c : Course => getCourseUID c) cs.

(** [c] leaf-references [d], both courses of [cs]. *)
Definition references (cs : list Course) (c d : Course) : Prop :=
  In c cs /\ In d cs /\
  In (getCourseUID d) (map getCourseUID (leaves (prereqs c))).

(** [c] references [d] at a leaf reached through ["and"] nodes only. *)
Definition requires (cs : list Course) (c d : Course) : Prop :=
  In c cs /\ In d cs /\
  In (getCourseUID d) (map getCourseUID (required_leaves (prereqs c))).

(** The dependency graph of [cs] has no cycle. *)
Definition acyclic (cs : list Course) : Prop :=
  forall c, ~ clos_trans Course (references cs) c c.

(** Every leaf reference names a course of the list. *)
Definition resolvable (cs : list Course) : Prop :=
  forall c, In c cs ->
  forall l, In l (leaves (prereqs c)) -> In (getCourseUID l) (uids cs).

(** The entry [set] stores for a course. *)
Definition entry (c : Course) : CourseUID * Course := (getCourseUID c, c).

(** [d] stands at an earlier position of [plan] than [c]. *)
Definition earlier (plan : list Course) (d c : Course) : Prop :=
  exists i j,
    nth_error plan i = Some d /\ nth_error plan j = Some c /\ i < j.

(** Every course of [plan] has its prerequisite satisfied by the
    courses that stand before it. *)
Definition satisfied_in_order (plan : list Course) : Prop :=
  forall l1 c l2,
    plan = l1 ++ c :: l2 ->
    isPreReqSatisfied (prereqs c) (map entry l1) = Normal true.

(** The resolver returns a plan that holds the input courses once each
    and in which a course comes after every course it references,
    directly or through other courses. *)
Definition resolves_in_reference_order (cs : list Course) : Prop :=
  exists plan,
    determineMajorPlan cs = Normal (Some plan) /\
    Permutation plan cs /\
    forall c d, clos_trans Course (references cs) c d -> earlier plan d c.

(** The state in which [determineMajorPlan] enters its loop. *)
Definition initial_state (cs : list Course) : LoopState :=
  {| courses := cs;
     takenCoursesMap := JSMap.empty;
     solutionIsPossible := true |}.

(** Two entries of the list, at different positions, have one UID. *)
Definition has_duplicate_uid (cs : list Course) : Prop :=
  exists i j a b,
    i <> j /\ nth_error cs i = Some a /\ nth_error cs j = Some b /\
    getCourseUID a = getCourseUID b.

(** Every prerequisite of the list has ["and"] and ["or"] tags only. *)
Definition all_well_formed (cs : list Course) : bool :=
  forallb (fun c : Course => well_formed (prereqs c)) cs.

(** No prerequisite of the list has an ["or"] node without children. *)
Definition all_no_empty_any (cs : list Course) : bool :=
  forallb (fun c : Course => no_empty_any (prereqs c)) cs.

(** A taken-courses map in which every course had its prerequisite
    satisfied by the entries before it when it was appended. *)
Inductive justified : JSMap.t -> Prop :=
| justified_empty : justified JSMap.empty
| justified_snoc m c :
    justified m ->
    isPreReqSatisfied (prereqs c) m = Normal true ->
    JSMap.has (getCourseUID c) m = false ->
    justified (m ++ [entry c]).

(** The keys of the map are distinct UIDs of the input, and the
    remaining courses are courses of the input. *)
Definition keys_inv (cs : list Course) (st : LoopState) : Prop :=
  NoDup (JSMap.keys (takenCoursesMap st)) /\
  incl (JSMap.keys (takenCoursesMap st)) (uids cs) /\
  incl (courses st) cs.

(** The map is justified, and its values with the remaining courses
    are the input, in some order. *)
Definition plan_inv (cs : list Course) (st : LoopState) : Prop :=
  justified (takenCoursesMap st) /\
  Permutation cs (JSMap.values (takenCoursesMap st) ++ courses st).

(** The leaves below one child of a node. *)
Definition value_leaves (v : PreReqValue) : list CourseInfo :=
  match v with
  | InfoValue c => [c]
  | PreReqNode q => leaves q
  end.

(** The required leaves below one child of a node. *)
Definition value_required_leaves (v : PreReqValue) : list CourseInfo :=
  match v with
  | InfoValue c => [c]
  | PreReqNode q => required_leaves q
  end.

(** The [B] courses stay in the remaining list, the [P] UIDs stay out
    of the map, and the map has no more entries than courses have
    left the list. *)
Definition blocked_inv (cs : list Course) (P : CourseUID -> Prop)
  (B : Course -> Prop) (st : LoopState) : Prop :=
  incl (courses st) cs /\
  (forall k, P k -> JSMap.has k (takenCoursesMap st) = false) /\
  (forall c, In c cs -> B c -> In c (courses st)) /\
  JSMap.size (takenCoursesMap st) + length (courses st) <= length cs.

(** The loop on [cs] runs three rounds and the third one scans an empty
    list: the second round leaves no course, the loop condition still
    holds, and [null] is returned after the third round. *)
Definition third_round_on_empty_list (cs : list Course) : Prop :=
  exists st1 st2 st3,
    loop_body (initial_state cs) = Normal st1 /\
    loop_body st1 = Normal st2 /\
    courses st2 = [] /\
    loop_cond (length cs) st2 = true /\
    loop_body st2 = Normal st3 /\
    rounds (length cs) (initial_state cs) 3 (Normal st3) /\
    determineMajorPlan cs = Normal None.

(** The course [CS n] of the examples. *)
Definition CS (n : Z) : CourseInfo := mkCourseInfo n "CS".

(** The example input of the design document. *)
Definition spec_example : list Course :=
  [ mkCourse (CS 1) (mkPreReq AND [InfoValue (CS 2); InfoValue (CS 3)]);
    mkCourse (CS 2) (mkPreReq AND []);
    mkCourse (CS 3) (mkPreReq OR [InfoValue (CS 2)]) ].

(** The value of a prerequisite tree read as a boolean formula: an
    ["and"] node is the conjunction of its children, an ["or"] node
    their disjunction, and a leaf holds when its course is taken. *)
Fixpoint formula_value (p : PreReq) (m : JSMap.t) : bool :=
  match p with
  | mkPreReq ty vs =>
      let child := fun v => match v with
                            | InfoValue c => isCourseTaken c m
                            | PreReqNode q => formula_value q m
                            end in
      if String.eqb ty AND then forallb child vs
      else if String.eqb ty OR then existsb child vs
      else false
  end.

(** The characters a printed integer is made of. *)
Definition is_number_char (a : ascii) : bool :=
  existsb (Ascii.eqb a) (list_ascii_of_string "-0123456789").

(** A string without a digit and without a minus sign. *)
Fixpoint free_of_number_chars (s : string) : bool :=
  match s with
  | EmptyString => true
  | String a rest => negb (is_number_char a) && free_of_number_chars rest
  end.

(** A string of digits and minus signs only. *)
Fixpoint only_number_chars (s : string) : bool :=
  match s with
  | EmptyString => true
  | String a rest => is_number_char a && only_number_chars rest
  end.

(** [q] lists the courses of [cs], each after courses that satisfy its
    prerequisite. *)
Definition valid_order (cs q : list Course) : Prop :=
  Permutation q cs /\ satisfied_in_order q.

(** Checks that every course of [l] has its prerequisite satisfied by
    the map [taken] extended with the courses of [l] before it. *)
Fixpoint satisfied_from (taken : JSMap.t) (l : list Course) : bool :=
  match l with
  | [] => true
  | c :: rest =>
      match isPreReqSatisfied (prereqs c) taken with
      | Normal true => satisfied_from (taken ++ [entry c]) rest
      | _ => false
      end
  end.

(** The resolver yields no plan: it returns [null] or the evaluator's
    error propagates. *)
Definition no_plan (cs : list Course) : Prop :=
  determineMajorPlan cs = Normal None \/
  determineMajorPlan cs = Throw unexpected_structure.

(* ===================================================================== *)
(** ** The loop, one round at a time *)
(* ===================================================================== *)

Lemma loop_body_decreases coursesAmount st st' :
  loop_cond coursesAmount st = true ->
  loop_body st = Normal st' ->
  loop_measure st' < loop_measure st.
Proof.
  unfold loop_cond, loop_body, loop_measure.
  intros Hc Hb.
  apply andb_true_iff in Hc as [_ ->].
  destruct (array_filter _ _ _) as [[r m]|e]; [|discriminate].
  destruct (Nat.ltb (length r) (length (courses st))) eqn:E;
    injection Hb as <-; simpl; [apply Nat.ltb_lt in E|]; lia.
Qed.

(** One unfolding of the [while] statement. *)
Lemma while_loop_eq coursesAmount st :
  while_loop coursesAmount st =
  if loop_cond coursesAmount st
  then match loop_body st with
       | Normal st' => while_loop coursesAmount st'
       | Throw e => Throw e
       end
  else Normal st.
Proof.
  funelim (while_loop coursesAmount st);
    try match goal with E : loop_cond _ _ = _ |- _ => rewrite E end;
    try match goal with E : loop_body _ = _ |- _ => rewrite E end;
    reflexivity.
Qed.

Lemma rounds_while_loop n st k r :
  rounds n st k r -> while_loop n st = r.
Proof.
  induction 1 as [st Hc | st e Hc Hb | st st' k r Hc Hb _ IH];
    rewrite while_loop_eq, Hc; try rewrite Hb; auto.
Qed.

(** The loop always completes, after some number of rounds. *)
Lemma while_loop_rounds n st :
  exists k, rounds n st k (while_loop n st).
Proof.
  remember (loop_measure st) as w eqn:Hw.
  revert st Hw.
  induction w as [w IH] using lt_wf_ind; intros st ->.
  rewrite while_loop_eq.
  destruct (loop_cond n st) eqn:Hc.
  - destruct (loop_body st) as [st'|e] eqn:Hb.
    + destruct (IH (loop_measure st')
                  (loop_body_decreases n st st' Hc Hb) st' eq_refl) as [k Hk].
      exists (S k). eapply rounds_next; eassumption.
    + exists 1. now apply rounds_throw.
  - exists 0. now apply rounds_exit.
Qed.

Lemma rounds_deterministic n st k r k' r' :
  rounds n st k r -> rounds n st k' r' -> k = k' /\ r = r'.
Proof.
  intros H. revert k' r'.
  induction H as [st Hc | st e Hc Hb | st st' k r Hc Hb _ IH];
    intros k' r' H'; inversion H'; subst; try congruence; auto.
  - split; congruence.
  - match goal with
    | Hb' : loop_body st = Normal ?s, Hr : rounds _ ?s _ _ |- _ =>
        assert (s = st') by congruence; subst s;
        destruct (IH _ _ Hr) as [-> ->]; auto
    end.
Qed.

(** The number of rounds is bounded by the loop measure. *)
Lemma rounds_le_measure n st k r :
  rounds n st k r -> k <= loop_measure st.
Proof.
  induction 1 as [st Hc | st e Hc Hb | st st' k r Hc Hb _ IH].
  - lia.
  - unfold loop_cond in Hc. apply andb_true_iff in Hc as [_ Hp].
    unfold loop_measure. rewrite Hp. lia.
  - pose proof (loop_body_decreases _ _ _ Hc Hb). lia.
Qed.

(** A round that does not shorten the remaining list is the last one. *)
Lemma loop_body_progress_or_last n st st' :
  loop_body st = Normal st' ->
  length (courses st') < length (courses st) \/ loop_cond n st' = false.
Proof.
  unfold loop_body. intros Hb.
  destruct (array_filter _ _ _) as [[r m]|e]; [|discriminate].
  injection Hb as <-. unfold loop_cond. simpl.
  destruct (Nat.ltb (length r) (length (courses st))) eqn:E.
  - left. now apply Nat.ltb_lt.
  - right. apply andb_false_r.
Qed.

(* ===================================================================== *)
(** ** Induction on prerequisite trees *)
(* ===================================================================== *)

Section PreReq_induction.

Variable P : PreReq -> Prop.
Variable Q : PreReqValue -> Prop.
Hypothesis P_node : forall ty vs, Forall Q vs -> P (mkPreReq ty vs).
Hypothesis Q_info : forall c, Q (InfoValue c).
Hypothesis Q_node : forall p, P p -> Q (PreReqNode p).

Fixpoint PreReq_tree_ind (p : PreReq) : P p :=
  match p with
  | mkPreReq ty vs =>
      P_node ty vs
        ((fix children (l : list PreReqValue) : Forall Q l :=
            match l with
            | [] => Forall_nil Q
            | v :: rest =>
                Forall_cons v (PreReqValue_tree_ind v) (children rest)
            end) vs)
  end
with PreReqValue_tree_ind (v : PreReqValue) : Q v :=
  match v with
  | InfoValue c => Q_info c
  | PreReqNode p => Q_node p (PreReq_tree_ind p)
  end.

End PreReq_induction.

(* ===================================================================== *)
(** ** [every] and [some] *)
(* ===================================================================== *)

Section every_some.

Context {A : Type}.
Implicit Types (f g : A -> Completion bool) (l : list A).

Lemma every_nil f : every f [] = Normal true.
Proof. reflexivity. Qed.

Lemma some_nil f : some f [] = Normal false.
Proof. reflexivity. Qed.

Lemma every_true_iff f l :
  every f l = Normal true <-> Forall (fun x => f x = Normal true) l.
Proof.
  induction l as [|x l IH]; simpl.
  - split; auto.
  - destruct (f x) as [[|]|e] eqn:E.
    + rewrite IH. split; [intros; constructor; auto|].
      now inversion 1.
    + split; [discriminate|]. inversion 1; congruence.
    + split; [discriminate|]. inversion 1; congruence.
Qed.

Lemma every_false_inv f l :
  every f l = Normal false -> exists x, In x l /\ f x = Normal false.
Proof.
  induction l as [|x l IH]; simpl; [discriminate|].
  destruct (f x) as [[|]|e] eqn:E; try discriminate.
  - intros H. destruct (IH H) as (y & Hy & Hf). eauto.
  - eauto.
Qed.

Lemma some_true_inv f l :
  some f l = Normal true -> exists x, In x l /\ f x = Normal true.
Proof.
  induction l as [|x l IH]; simpl; [discriminate|].
  destruct (f x) as [[|]|e] eqn:E; try discriminate.
  - eauto.
  - intros H. destruct (IH H) as (y & Hy & Hf). eauto.
Qed.

Lemma some_false_iff f l :
  some f l = Normal false <-> Forall (fun x => f x = Normal false) l.
Proof.
  induction l as [|x l IH]; simpl.
  - split; auto.
  - destruct (f x) as [[|]|e] eqn:E.
    + split; [discriminate|]. inversion 1; congruence.
    + rewrite IH. split; [intros; constructor; auto|].
      now inversion 1.
    + split; [discriminate|]. inversion 1; congruence.
Qed.

(** When no callback call throws, neither does the array method. *)
Lemma every_no_throw f l :
  Forall (fun x => exists b, f x = Normal b) l ->
  exists b, every f l = Normal b.
Proof.
  induction 1 as [|x l [[|] Hx] _ IH]; simpl; eauto; rewrite Hx; eauto.
Qed.

Lemma some_no_throw f l :
  Forall (fun x => exists b, f x = Normal b) l ->
  exists b, some f l = Normal b.
Proof.
  induction 1 as [|x l [[|] Hx] _ IH]; simpl; eauto; rewrite Hx; eauto.
Qed.

(** The results on two callbacks, where [g] answers true or throws
    wherever [f] answers true. *)
Lemma every_true_or_throw f g l :
  Forall (fun x => f x = Normal true ->
                   g x = Normal true \/ exists e, g x = Throw e) l ->
  every f l = Normal true ->
  every g l = Normal true \/ exists e, every g l = Throw e.
Proof.
  induction 1 as [|x l Hx _ IH]; simpl; auto.
  destruct (f x) as [[|]|e] eqn:E; try discriminate.
  intros H. destruct (Hx eq_refl) as [-> | [e ->]]; eauto.
Qed.

Lemma some_true_or_throw f g l :
  Forall (fun x => f x = Normal true ->
                   g x = Normal true \/ exists e, g x = Throw e) l ->
  some f l = Normal true ->
  some g l = Normal true \/ exists e, some g l = Throw e.
Proof.
  induction 1 as [|x l Hx _ IH]; simpl; [discriminate|].
  destruct (f x) as [[|]|e] eqn:E; try discriminate.
  - intros _. destruct (Hx eq_refl) as [-> | [e ->]]; eauto.
  - intros H. destruct (g x) as [[|]|e']; eauto.
Qed.

End every_some.

(* ===================================================================== *)
(** ** The taken-courses map *)
(* ===================================================================== *)

Lemma has_app k m1 m2 :
  JSMap.has k (m1 ++ m2) = JSMap.has k m1 || JSMap.has k m2.
Proof. unfold JSMap.has. apply existsb_app. Qed.

Lemma has_In_keys k m :
  JSMap.has k m = true <-> In k (JSMap.keys m).
Proof.
  unfold JSMap.has, JSMap.keys. rewrite existsb_exists, in_map_iff.
  split.
  - intros ([k' v] & Hin & Heq). apply String.eqb_eq in Heq.
    exists (k', v). auto.
  - intros ([k' v] & Heq & Hin). exists (k', v). split; auto.
    now apply String.eqb_eq.
Qed.

Lemma has_false_not_In k m :
  JSMap.has k m = false <-> ~ In k (JSMap.keys m).
Proof.
  rewrite <- has_In_keys. destruct (JSMap.has k m); split; intuition congruence.
Qed.

Lemma has_set k' k v m :
  JSMap.has k' (JSMap.set k v m) = String.eqb k k' || JSMap.has k' m.
Proof.
  induction m as [|[k0 v0] m IH]; simpl.
  - now rewrite orb_false_r.
  - destruct (String.eqb_spec k0 k) as [->|Hne]; simpl.
    + destruct (String.eqb k k'); reflexivity.
    + rewrite IH. destruct (String.eqb k0 k'), (String.eqb k k'); reflexivity.
Qed.

(** [set] on a key that is absent appends the entry. *)
Lemma set_fresh k v m :
  JSMap.has k m = false -> JSMap.set k v m = m ++ [(k, v)].
Proof.
  induction m as [|[k0 v0] m IH]; simpl; auto.
  intros H. apply orb_false_iff in H as [H1 H2].
  rewrite H1, IH; auto.
Qed.

(** [set] keeps the keys, adding the new one if it was absent. *)
Lemma keys_set k v m :
  JSMap.keys (JSMap.set k v m) =
  if JSMap.has k m then JSMap.keys m else JSMap.keys m ++ [k].
Proof.
  induction m as [|[k0 v0] m IH]; simpl; auto.
  destruct (String.eqb_spec k0 k) as [->|Hne]; simpl; auto.
  rewrite IH. now destruct (JSMap.has k m).
Qed.

Lemma size_keys m : JSMap.size m = length (JSMap.keys m).
Proof. unfold JSMap.size, JSMap.keys. now rewrite length_map. Qed.

Lemma keys_included_set k v m : keys_included m (JSMap.set k v m).
Proof. intros k' H. rewrite has_set, H. apply orb_true_r. Qed.

Lemma keys_included_refl m : keys_included m m.
Proof. intros k H. exact H. Qed.

Lemma keys_included_trans m1 m2 m3 :
  keys_included m1 m2 -> keys_included m2 m3 -> keys_included m1 m3.
Proof. intros H1 H2 k H. auto. Qed.

(* ===================================================================== *)
(** ** The evaluator *)
(* ===================================================================== *)

Lemma isCourseInfo_spec v :
  (isCourseInfo v = true <-> exists c, v = InfoValue c) /\
  (isCourseInfo v = false <-> exists p, v = PreReqNode p).
Proof.
  destruct v as [c|p]; simpl; repeat split; eauto;
    try discriminate; intros [x Hx]; discriminate.
Qed.

Lemma isPrereqValueTaken_guard v m :
  isPrereqValueTaken v m =
  match v with
  | InfoValue c => Normal (isCourseTaken c m)
  | PreReqNode p => isPreReqSatisfied p m
  end.
Proof. destruct v; reflexivity. Qed.

Lemma isPreReqSatisfied_and vs m :
  isPreReqSatisfied (mkPreReq AND vs) m =
  every (fun v => isPrereqValueTaken v m) vs.
Proof. reflexivity. Qed.

Lemma isPreReqSatisfied_or vs m :
  isPreReqSatisfied (mkPreReq OR vs) m =
  some (fun v => isPrereqValueTaken v m) vs.
Proof. reflexivity. Qed.

Lemma isPreReqSatisfied_other ty vs m :
  ty <> AND -> ty <> OR ->
  isPreReqSatisfied (mkPreReq ty vs) m = Throw unexpected_structure.
Proof.
  intros H1 H2. simpl.
  destruct (String.eqb_spec ty AND); [contradiction|].
  destruct (String.eqb_spec ty OR); [contradiction|]. reflexivity.
Qed.

(** A well-formed tree evaluates to a boolean on every map. *)
Lemma well_formed_no_throw p m :
  well_formed p = true -> exists b, isPreReqSatisfied p m = Normal b.
Proof.
  revert p.
  apply (PreReq_tree_ind
    (fun p => well_formed p = true ->
              exists b, isPreReqSatisfied p m = Normal b)
    (fun v => match v with
              | InfoValue _ => True
              | PreReqNode q => well_formed q = true
              end -> exists b, isPrereqValueTaken v m = Normal b)).
  - intros ty vs IH Hwf. simpl in Hwf.
    apply andb_true_iff in Hwf as [Hty Hvs].
    rewrite forallb_forall in Hvs.
    assert (Hall : Forall (fun v => exists b,
                             isPrereqValueTaken v m = Normal b) vs).
    { rewrite Forall_forall in *. intros v Hv. apply IH; auto.
      specialize (Hvs v Hv). destruct v; auto. }
    simpl. destruct (String.eqb ty AND).
    + now apply every_no_throw.
    + simpl in Hty. rewrite Hty. now apply some_no_throw.
  - intros c _. simpl. eauto.
  - intros p IH Hwf. simpl. auto.
Qed.

Lemma well_formed_never_raises p :
  well_formed p = true -> never_raises p.
Proof.
  intros Hwf m e He.
  destruct (well_formed_no_throw p m Hwf) as [b Hb]. congruence.
Qed.

(** Growing the map turns no satisfied tree into an unsatisfied one:
    the tree stays satisfied unless a node that was skipped before is
    now evaluated and throws. *)
Lemma isPreReqSatisfied_true_or_throw S T :
  keys_included S T ->
  forall p,
    isPreReqSatisfied p S = Normal true ->
    isPreReqSatisfied p T = Normal true \/
    exists e, isPreReqSatisfied p T = Throw e.
Proof.
  intros Hincl.
  apply (PreReq_tree_ind
    (fun p => isPreReqSatisfied p S = Normal true ->
              isPreReqSatisfied p T = Normal true \/
              exists e, isPreReqSatisfied p T = Throw e)
    (fun v => isPrereqValueTaken v S = Normal true ->
              isPrereqValueTaken v T = Normal true \/
              exists e, isPrereqValueTaken v T = Throw e)).
  - intros ty vs IH. simpl.
    destruct (String.eqb ty AND).
    + now apply every_true_or_throw.
    + destruct (String.eqb ty OR); [|discriminate].
      now apply some_true_or_throw.
  - intros c. simpl. unfold isCourseTaken. intros H.
    injection H as H. left. f_equal. now apply Hincl.
  - intros p IH. simpl. exact IH.
Qed.

Lemma isPreReqSatisfied_monotone S T p :
  keys_included S T ->
  (forall e, isPreReqSatisfied p T <> Throw e) ->
  isPreReqSatisfied p S = Normal true ->
  isPreReqSatisfied p T = Normal true.
Proof.
  intros Hincl Hno HS.
  destruct (isPreReqSatisfied_true_or_throw S T Hincl p HS) as [H|[e H]];
    [exact H | destruct (Hno e H)].
Qed.

(* ===================================================================== *)
(** ** Running the resolver on explicit inputs *)
(* ===================================================================== *)

(** Unfolds one test of the loop condition, and the round after it. *)
Ltac loop_round :=
  rewrite while_loop_eq;
  unfold loop_cond, loop_body, areAllCoursesTaken; simpl.

(** C2. Two courses that require each other (each prerequisite an
    ["and"] or ["or"] node over the single leaf naming the other
    course): [determineMajorPlan] completes normally and returns [null];
    it does not throw. *)
Theorem two_cycle_returns_null (a b : CourseInfo) (ta tb : PreReqType) :
  ta = AND \/ ta = OR ->
  tb = AND \/ tb = OR ->
  determineMajorPlan
    [ mkCourse a (mkPreReq ta [InfoValue b]);
      mkCourse b (mkPreReq tb [InfoValue a]) ] = Normal None.
Proof.
  intros [-> | ->] [-> | ->]; unfold determineMajorPlan.
  all: do 2 loop_round; reflexivity.
Qed.

Lemma two_cycle_returns_null_witness :
  determineMajorPlan
    [ mkCourse (CS 1) (mkPreReq OR [InfoValue (CS 2)]);
      mkCourse (CS 2) (mkPreReq OR [InfoValue (CS 1)]) ] = Normal None.
Proof.
  apply (two_cycle_returns_null (CS 1) (CS 2) OR OR);
    right; reflexivity.
Defined.

(** C3. A prerequisite node whose tag is neither ["and"] nor ["or"]
    (a value that is not a [CourseInfo] leaf) makes [isPreReqSatisfied]
    throw the error; no boolean is returned. *)
Theorem malformed_tag_throws (v : PreReqValue) (p : PreReq) (m : JSMap.t) :
  v = PreReqNode p ->
  isCourseInfo v = false ->
  type p <> AND ->
  type p <> OR ->
  isPreReqSatisfied p m = Throw unexpected_structure /\
  isPrereqValueTaken v m = Throw unexpected_structure /\
  forall b, isPreReqSatisfied p m <> Normal b.
Proof.
  intros -> _ Hand Hor. destruct p as [ty vs]. simpl in Hand, Hor.
  assert (H : isPreReqSatisfied (mkPreReq ty vs) m = Throw unexpected_structure)
    by now apply isPreReqSatisfied_other.
  split; [exact H|]. split; [exact H|].
  intros b Hb. rewrite H in Hb. discriminate.
Qed.

Lemma malformed_tag_throws_witness :
  isPreReqSatisfied (mkPreReq "xor" [InfoValue (CS 1)]) JSMap.empty
    = Throw unexpected_structure /\
  isPrereqValueTaken (PreReqNode (mkPreReq "xor" [InfoValue (CS 1)]))
    JSMap.empty = Throw unexpected_structure /\
  forall b, isPreReqSatisfied (mkPreReq "xor" [InfoValue (CS 1)]) JSMap.empty
            <> Normal b.
Proof.
  apply (malformed_tag_throws
           (PreReqNode (mkPreReq "xor" [InfoValue (CS 1)]))
           (mkPreReq "xor" [InfoValue (CS 1)]) JSMap.empty);
    [reflexivity | reflexivity | discriminate | discriminate].
Defined.

(** C4. An ["or"] node with no children is unsatisfied on every map,
    and a single course with that prerequisite gets [null]. *)
Theorem empty_any_unsatisfied :
  (forall m, isPreReqSatisfied (mkPreReq OR []) m = Normal false) /\
  (forall i, determineMajorPlan [mkCourse i (mkPreReq OR [])] = Normal None).
Proof.
  split; [reflexivity|].
  intros i. unfold determineMajorPlan. do 2 loop_round. reflexivity.
Qed.

(** C5. An ["and"] node with no children is satisfied on every map; a
    single course with that prerequisite is promoted by the first round
    and the one-element plan is returned. *)
Theorem empty_all_satisfied :
  (forall m, isPreReqSatisfied (mkPreReq AND []) m = Normal true) /\
  (forall i,
     let c := mkCourse i (mkPreReq AND []) in
     loop_body {| courses := [c];
                  takenCoursesMap := JSMap.empty;
                  solutionIsPossible := true |}
     = Normal {| courses := [];
                 takenCoursesMap := [(getCourseUID c, c)];
                 solutionIsPossible := true |} /\
     determineMajorPlan [c] = Normal (Some [c])).
Proof.
  split; [reflexivity|].
  intros i c. split; [reflexivity|].
  unfold determineMajorPlan. do 2 loop_round. reflexivity.
Qed.

(** C6. A course promoted by the filter callback is in the map against
    which the courses scanned after it in the same round are evaluated,
    and the plan lists the courses in the order of their promotion: the
    input [CS1 and(CS2, CS3); CS2 and(); CS3 or(CS2)] yields the plan
    [CS2; CS3; CS1]. *)
Theorem same_round_visibility (c : Course) (rest : list Course)
  (m : JSMap.t) :
  isPreReqSatisfied (prereqs c) m = Normal true ->
  array_filter filter_callback (c :: rest) m
    = array_filter filter_callback rest (JSMap.set (getCourseUID c) c m) /\
  let cs1 := mkCourse (CS 1)
               (mkPreReq AND [InfoValue (CS 2); InfoValue (CS 3)]) in
  let cs2 := mkCourse (CS 2) (mkPreReq AND []) in
  let cs3 := mkCourse (CS 3) (mkPreReq OR [InfoValue (CS 2)]) in
  array_filter filter_callback [cs1; cs2; cs3] JSMap.empty
    = Normal ([cs1], [entry cs2; entry cs3]) /\
  determineMajorPlan [cs1; cs2; cs3] = Normal (Some [cs2; cs3; cs1]).
Proof.
  intros Hsat. split.
  - simpl. unfold bind at 1. unfold filter_callback at 1. rewrite Hsat.
    simpl. unfold bind at 1.
    destruct (array_filter filter_callback rest _) as [[r m']|e]; reflexivity.
  - split; [reflexivity|]. vm_compute. reflexivity.
Qed.

Lemma same_round_visibility_witness :
  let cs1 := mkCourse (CS 1)
               (mkPreReq AND [InfoValue (CS 2); InfoValue (CS 3)]) in
  let cs2 := mkCourse (CS 2) (mkPreReq AND []) in
  let cs3 := mkCourse (CS 3) (mkPreReq OR [InfoValue (CS 2)]) in
  array_filter filter_callback [cs2; cs3] JSMap.empty
    = array_filter filter_callback [cs3]
        (JSMap.set (getCourseUID cs2) cs2 JSMap.empty) /\
  array_filter filter_callback [cs1; cs2; cs3] JSMap.empty
    = Normal ([cs1], [entry cs2; entry cs3]) /\
  determineMajorPlan [cs1; cs2; cs3] = Normal (Some [cs2; cs3; cs1]).
Proof.
  intros cs1 cs2 cs3.
  apply (same_round_visibility cs2 [cs3] JSMap.empty). reflexivity.
Defined.

(** C7 (the code at the failing input). Two courses that differ in
    subject and in classId get the same UID: the subject and the
    decimal digits are concatenated with nothing between them. *)
Theorem getCourseUID_collision :
  getCourseUID (mkCourseInfo 1 "CS1") = getCourseUID (mkCourseInfo 11 "CS") /\
  subject (mkCourseInfo 1 "CS1") <> subject (mkCourseInfo 11 "CS") /\
  classId (mkCourseInfo 1 "CS1") <> classId (mkCourseInfo 11 "CS").
Proof.
  split; [reflexivity|]. split; discriminate.
Qed.

(** Equal subject and classId give equal UIDs. *)
Lemma getCourseUID_deterministic c1 c2 :
  subject c1 = subject c2 -> classId c1 = classId c2 ->
  getCourseUID c1 = getCourseUID c2.
Proof. unfold getCourseUID. now intros -> ->. Qed.

(** C10. The evaluator is monotone in the taken-courses map: for a tree
    whose evaluation never raises and maps [S], [T] with every key of
    [S] a key of [T], satisfied on [S] implies satisfied on [T]; so a
    satisfied tree stays satisfied when [set] adds to the map. *)
Theorem evaluator_monotone (p : PreReq) (S T : JSMap.t) :
  never_raises p ->
  keys_included S T ->
  isPreReqSatisfied p S = Normal true ->
  isPreReqSatisfied p T = Normal true /\
  forall k v, isPreReqSatisfied p (JSMap.set k v S) = Normal true.
Proof.
  intros Hnr Hincl HS. split.
  - apply (isPreReqSatisfied_monotone S T); auto.
  - intros k v. apply (isPreReqSatisfied_monotone S); auto.
    apply keys_included_set.
Qed.

Lemma evaluator_monotone_witness :
  let p := mkPreReq AND [InfoValue (CS 1);
                         PreReqNode (mkPreReq OR [InfoValue (CS 2);
                                                  InfoValue (CS 3)])] in
  let c := fun n => mkCourse (CS n) (mkPreReq AND []) in
  let S := [entry (c 1%Z); entry (c 3%Z)] in
  let T := [entry (c 3%Z); entry (c 2%Z); entry (c 1%Z)] in
  isPreReqSatisfied p T = Normal true /\
  forall k v, isPreReqSatisfied p (JSMap.set k v S) = Normal true.
Proof.
  intros p c S T.
  apply (evaluator_monotone p S T).
  - apply well_formed_never_raises. reflexivity.
  - intros k H. apply has_In_keys. apply has_In_keys in H.
    simpl in *. tauto.
  - reflexivity.
Defined.

(* ===================================================================== *)
(** ** One scan of the remaining courses *)
(* ===================================================================== *)

Lemma array_filter_cons c rest m :
  array_filter filter_callback (c :: rest) m =
  match isPreReqSatisfied (prereqs c) m with
  | Normal true =>
      array_filter filter_callback rest (JSMap.set (getCourseUID c) c m)
  | Normal false =>
      match array_filter filter_callback rest m with
      | Normal (r, m') => Normal (c :: r, m')
      | Throw e => Throw e
      end
  | Throw e => Throw e
  end.
Proof.
  simpl. unfold bind at 1. unfold filter_callback at 1.
  destruct (isPreReqSatisfied (prereqs c) m) as [[|]|e]; auto.
  unfold bind.
  destruct (array_filter filter_callback rest _) as [[r m']|e]; auto.
Qed.

(** Case analysis on the scan of [c :: rest]. *)
Ltac scan_head c m H :=
  rewrite array_filter_cons in H;
  let E := fresh "Hsat" in
  destruct (isPreReqSatisfied (prereqs c) m) as [[|]|?] eqn:E;
  [ | match type of H with
      | context [array_filter filter_callback ?l ?m0] =>
          let Er := fresh "Hrest" in
          destruct (array_filter filter_callback l m0) as [[? ?]|?] eqn:Er;
          [ injection H as <- <- | discriminate H ]
      end
    | discriminate H ].

Lemma array_filter_length l : forall m r m',
  array_filter filter_callback l m = Normal (r, m') ->
  length r <= length l.
Proof.
  induction l as [|c rest IH]; intros m r m' H.
  - injection H as <- <-. auto.
  - scan_head c m H.
    + apply IH in H. simpl. lia.
    + apply IH in Hrest. simpl. lia.
Qed.

(** The kept courses are courses of the scanned list. *)
Lemma array_filter_incl l : forall m r m',
  array_filter filter_callback l m = Normal (r, m') ->
  incl r l.
Proof.
  induction l as [|c rest IH]; intros m r m' H.
  - injection H as <- <-. apply incl_refl.
  - scan_head c m H.
    + apply IH in H. now apply incl_tl.
    + apply IH in Hrest. intros x [<-|Hx]; [left|right]; auto.
Qed.

(** A scan that keeps as many courses as it was given promoted none:
    the map is unchanged and every course was unsatisfied on it. *)
Lemma array_filter_no_progress l : forall m r m',
  array_filter filter_callback l m = Normal (r, m') ->
  length r = length l ->
  r = l /\ m' = m /\
  Forall (fun c : Course => isPreReqSatisfied (prereqs c) m = Normal false) l.
Proof.
  induction l as [|c rest IH]; intros m r m' H Hlen.
  - injection H as <- <-. auto.
  - scan_head c m H.
    + apply array_filter_length in H. simpl in Hlen. lia.
    + simpl in Hlen. injection Hlen as Hlen.
      destruct (IH _ _ _ Hrest Hlen) as (-> & -> & Hall). auto.
Qed.

(** The scan only adds keys to the map. *)
Lemma array_filter_keys_included l : forall m r m',
  array_filter filter_callback l m = Normal (r, m') ->
  keys_included m m'.
Proof.
  induction l as [|c rest IH]; intros m r m' H.
  - injection H as <- <-. apply keys_included_refl.
  - scan_head c m H.
    + eapply keys_included_trans; [apply keys_included_set | eauto].
    + eauto.
Qed.

(** On well-formed prerequisites the scan does not throw. *)
Lemma array_filter_no_throw l :
  Forall (fun c : Course => well_formed (prereqs c) = true) l ->
  forall m, exists r m', array_filter filter_callback l m = Normal (r, m').
Proof.
  induction 1 as [|c rest Hc _ IH]; intros m.
  - exists [], m. reflexivity.
  - rewrite array_filter_cons.
    destruct (well_formed_no_throw _ m Hc) as [[|] ->].
    + apply IH.
    + destruct (IH m) as (r & m' & ->). eauto.
Qed.

(** The keys of the map stay without duplicates, and they are keys of
    the map before the scan or UIDs of scanned courses. *)
Lemma NoDup_keys_set k v m :
  NoDup (JSMap.keys m) -> NoDup (JSMap.keys (JSMap.set k v m)).
Proof.
  intros H. rewrite keys_set. destruct (JSMap.has k m) eqn:E; auto.
  apply has_false_not_In in E.
  apply NoDup_app; auto.
  - constructor; [intros []|constructor].
  - intros x Hx [<-|[]]. contradiction.
Qed.

Lemma array_filter_keys l : forall m r m',
  array_filter filter_callback l m = Normal (r, m') ->
  NoDup (JSMap.keys m) ->
  NoDup (JSMap.keys m') /\ incl (JSMap.keys m') (JSMap.keys m ++ uids l).
Proof.
  induction l as [|c rest IH]; intros m r m' H Hnd.
  - injection H as <- <-. split; auto. rewrite app_nil_r. apply incl_refl.
  - scan_head c m H.
    + destruct (IH _ _ _ H (NoDup_keys_set _ c _ Hnd)) as [H1 H2].
      split; auto. intros k Hk. apply H2 in Hk.
      rewrite keys_set in Hk. apply in_app_iff in Hk.
      apply in_app_iff. simpl.
      destruct (JSMap.has (getCourseUID c) m).
      * tauto.
      * destruct Hk as [Hk|Hk]; auto.
        apply in_app_iff in Hk as [Hk|[<-|[]]]; auto.
    + destruct (IH _ _ _ Hrest Hnd) as [H1 H2]. split; auto.
      intros k Hk. apply H2 in Hk. apply in_app_iff in Hk.
      apply in_app_iff. simpl. tauto.
Qed.

(* ===================================================================== *)
(** ** Maps built by appending satisfied courses *)
(* ===================================================================== *)

Lemma uids_app l1 l2 : uids (l1 ++ l2) = uids l1 ++ uids l2.
Proof. apply map_app. Qed.

Lemma In_uids (c : Course) cs : In c cs -> In (getCourseUID c) (uids cs).
Proof. apply (in_map (fun c : Course => getCourseUID c)). Qed.

Lemma In_uids_inv k cs :
  In k (uids cs) -> exists c : Course, getCourseUID c = k /\ In c cs.
Proof. unfold uids. now rewrite in_map_iff. Qed.

Lemma uids_length cs : length (uids cs) = length cs.
Proof. apply length_map. Qed.

Lemma values_app m1 m2 :
  JSMap.values (m1 ++ m2) = JSMap.values m1 ++ JSMap.values m2.
Proof. apply map_app. Qed.

Lemma keys_app m1 m2 :
  JSMap.keys (m1 ++ m2) = JSMap.keys m1 ++ JSMap.keys m2.
Proof. apply map_app. Qed.

Lemma keys_entries l : JSMap.keys (map entry l) = uids l.
Proof. unfold JSMap.keys, uids. rewrite map_map. reflexivity. Qed.

Lemma values_entries l : JSMap.values (map entry l) = l.
Proof. unfold JSMap.values. rewrite map_map. simpl. apply map_id. Qed.

(** A justified map is the list of the entries of its values. *)
Lemma justified_entries m : justified m -> m = map entry (JSMap.values m).
Proof.
  induction 1 as [|m c _ IH _ _]; [reflexivity|].
  rewrite values_app, map_app, <- IH. reflexivity.
Qed.

Lemma justified_keys m : justified m -> JSMap.keys m = uids (JSMap.values m).
Proof.
  intros H. rewrite (justified_entries m H) at 1. apply keys_entries.
Qed.

Lemma justified_NoDup_keys m : justified m -> NoDup (JSMap.keys m).
Proof.
  induction 1 as [|m c _ IH _ Hfresh]; [constructor|].
  rewrite keys_app. apply has_false_not_In in Hfresh.
  apply NoDup_app; auto.
  - constructor; [intros []|constructor].
  - intros x Hx [<-|[]]. contradiction.
Qed.

(** Every course of a justified map has its prerequisite satisfied by
    the entries that stand before it. *)
Lemma justified_prefix m :
  justified m ->
  forall l1 c l2, JSMap.values m = l1 ++ c :: l2 ->
  isPreReqSatisfied (prereqs c) (map entry l1) = Normal true.
Proof.
  induction 1 as [|m c0 Hj IH Hsat _]; intros l1 c l2 Hsplit.
  - destruct l1; discriminate.
  - rewrite values_app in Hsplit. simpl in Hsplit.
    destruct (exists_last (l := c :: l2)) as (l2' & x & Hlast);
      [discriminate|].
    rewrite Hlast, app_assoc in Hsplit.
    apply app_inj_tail in Hsplit as [Hm <-].
    destruct l2' as [|y l2'].
    + simpl in Hlast. injection Hlast as <-.
      rewrite app_nil_r in Hm. subst l1.
      rewrite <- (justified_entries m Hj). exact Hsat.
    + simpl in Hlast. injection Hlast as <- _.
      eapply IH. rewrite Hm. reflexivity.
Qed.

(** The scan of courses whose UIDs are new to the map and pairwise
    distinct keeps the map justified and moves the promoted courses
    from the list to the map. *)
Lemma array_filter_fresh l : forall m r m',
  NoDup (JSMap.keys m ++ uids l) ->
  justified m ->
  array_filter filter_callback l m = Normal (r, m') ->
  justified m' /\
  Permutation (JSMap.values m ++ l) (JSMap.values m' ++ r).
Proof.
  induction l as [|c rest IH]; intros m r m' Hnd Hj H.
  - injection H as <- <-. auto.
  - assert (Hfresh : JSMap.has (getCourseUID c) m = false).
    { apply has_false_not_In. intros Hin.
      apply NoDup_remove_2 in Hnd. apply Hnd.
      apply in_app_iff. auto. }
    scan_head c m H.
    + rewrite (set_fresh _ _ _ Hfresh) in H.
      apply IH in H.
      * destruct H as [Hj' Hp]. split; auto.
        rewrite values_app in Hp. simpl in Hp.
        rewrite <- app_assoc in Hp. exact Hp.
      * rewrite keys_app, <- app_assoc. exact Hnd.
      * now apply justified_snoc.
    + apply IH in Hrest; auto.
      * destruct Hrest as [Hj' Hp]. split; auto.
        now apply Permutation_elt.
      * simpl in Hnd. now apply NoDup_remove_1 in Hnd.
Qed.

(** A list without repeated UIDs has no course twice, and the UID names
    the course. *)
Lemma uid_injective_on cs a b :
  NoDup (uids cs) -> In a cs -> In b cs ->
  getCourseUID a = getCourseUID b -> a = b.
Proof.
  induction cs as [|c cs IH]; simpl; [tauto|].
  intros Hnd Ha Hb Heq. inversion Hnd as [|? ? Hnot Hnd']; subst.
  destruct Ha as [<-|Ha], Hb as [<-|Hb]; auto.
  - exfalso. apply Hnot. rewrite Heq.
    now apply (in_map (fun c : Course => getCourseUID c)).
  - exfalso. apply Hnot. rewrite <- Heq.
    now apply (in_map (fun c : Course => getCourseUID c)).
Qed.

Lemma NoDup_uids_NoDup cs : NoDup (uids cs) -> NoDup cs.
Proof. apply NoDup_map_inv. Qed.

(** A list shorter than one it includes, when it has no duplicates and
    the other has. *)
Lemma NoDup_incl_lt {A : Type} (l l' : list A) :
  NoDup l -> incl l l' -> ~ NoDup l' -> length l < length l'.
Proof.
  intros Hnd Hincl Hdup.
  destruct (Nat.lt_ge_cases (length l) (length l')) as [|Hle]; auto.
  exfalso. apply Hdup. eapply NoDup_incl_NoDup; eauto.
Qed.

(* ===================================================================== *)
(** ** Invariants of the loop *)
(* ===================================================================== *)

Lemma determineMajorPlan_eq cs :
  determineMajorPlan cs =
  match while_loop (length cs) (initial_state cs) with
  | Normal st =>
      if solutionIsPossible st
      then Normal (Some (JSMap.values (takenCoursesMap st)))
      else Normal None
  | Throw e => Throw e
  end.
Proof. reflexivity. Qed.

(** The only error the resolver throws is the evaluator's. *)
Lemma isPreReqSatisfied_throw p m e :
  isPreReqSatisfied p m = Throw e -> e = unexpected_structure.
Proof.
  revert p.
  apply (PreReq_tree_ind
    (fun p => isPreReqSatisfied p m = Throw e -> e = unexpected_structure)
    (fun v => isPrereqValueTaken v m = Throw e -> e = unexpected_structure)).
  - intros ty vs IH. simpl.
    destruct (String.eqb ty AND); [|destruct (String.eqb ty OR)].
    + induction IH as [|v vs Hv _ IHvs]; simpl; [discriminate|].
      destruct (isPrereqValueTaken v m) as [[|]|e']; auto; try discriminate.
    + induction IH as [|v vs Hv _ IHvs]; simpl; [discriminate|].
      destruct (isPrereqValueTaken v m) as [[|]|e']; auto; try discriminate.
    + congruence.
  - discriminate.
  - auto.
Qed.

Section loop_invariant.

Variable n : nat.
Variable I : LoopState -> Prop.
Hypothesis I_step : forall st st',
  I st -> loop_cond n st = true -> loop_body st = Normal st' -> I st'.

(** An invariant of the rounds holds when the loop exits. *)
Lemma rounds_invariant st k st_f :
  rounds n st k (Normal st_f) -> I st ->
  I st_f /\ loop_cond n st_f = false.
Proof.
  remember (Normal st_f) as r eqn:Hr.
  induction 1 as [st Hc | st e Hc Hb | st st' k r Hc Hb _ IH]; intros HI.
  - injection Hr as ->. auto.
  - discriminate.
  - apply IH; eauto.
Qed.

(** When no round throws, the loop exits normally. *)
Lemma rounds_no_throw st k r :
  (forall st, I st -> exists st', loop_body st = Normal st') ->
  rounds n st k r -> I st -> exists st_f, r = Normal st_f.
Proof.
  intros Hbody.
  induction 1 as [st Hc | st e Hc Hb | st st' k r Hc Hb _ IH]; intros HI.
  - eauto.
  - destruct (Hbody st HI) as [st' Hst']. congruence.
  - apply IH; eauto.
Qed.

End loop_invariant.

Lemma loop_body_inv st st' :
  loop_body st = Normal st' ->
  exists r m,
    array_filter filter_callback (courses st) (takenCoursesMap st)
      = Normal (r, m) /\
    st' = {| courses := r; takenCoursesMap := m;
             solutionIsPossible :=
               Nat.ltb (length r) (length (courses st)) |}.
Proof.
  unfold loop_body.
  destruct (array_filter _ _ _) as [[r m]|e]; [|discriminate].
  intros H. injection H as <-. eauto.
Qed.

Lemma loop_body_no_throw st :
  Forall (fun c : Course => well_formed (prereqs c) = true) (courses st) ->
  exists st', loop_body st = Normal st'.
Proof.
  intros Hwf. unfold loop_body.
  destruct (array_filter_no_throw _ Hwf (takenCoursesMap st))
    as (r & m & ->). eauto.
Qed.

Lemma all_well_formed_incl cs l :
  all_well_formed cs = true -> incl l cs ->
  Forall (fun c : Course => well_formed (prereqs c) = true) l.
Proof.
  unfold all_well_formed. rewrite forallb_forall, Forall_forall. auto.
Qed.

(** *** Lists with a repeated UID *)

Lemma keys_inv_initial cs : keys_inv cs (initial_state cs).
Proof.
  repeat split; simpl.
  - constructor.
  - intros k [].
  - apply incl_refl.
Qed.

Lemma keys_inv_step cs st st' :
  keys_inv cs st -> loop_body st = Normal st' -> keys_inv cs st'.
Proof.
  intros (Hnd & Hk & Hc) Hb.
  apply loop_body_inv in Hb as (r & m & Hscan & ->).
  destruct (array_filter_keys _ _ _ _ Hscan Hnd) as [Hnd' Hk'].
  pose proof (array_filter_incl _ _ _ _ Hscan) as Hr.
  repeat split; simpl; auto.
  - intros k Hin. apply Hk' in Hin. apply in_app_iff in Hin as [Hin|Hin]; auto.
    apply In_uids_inv in Hin as (c & <- & Hin). apply In_uids. auto.
  - eapply incl_tran; eauto.
Qed.

Lemma has_duplicate_uid_not_NoDup cs :
  has_duplicate_uid cs -> ~ NoDup (uids cs).
Proof.
  intros (i & j & a & b & Hij & Ha & Hb & Heq) Hnd.
  apply Hij. rewrite NoDup_nth_error in Hnd. apply Hnd.
  - unfold uids. rewrite length_map. apply nth_error_Some. congruence.
  - unfold uids. rewrite !nth_error_map, Ha, Hb. simpl. now f_equal.
Qed.

(** With a repeated UID the map never holds as many entries as the
    input has courses. *)
Lemma keys_inv_not_all_taken cs st :
  ~ NoDup (uids cs) -> keys_inv cs st ->
  areAllCoursesTaken (length cs) (takenCoursesMap st) = false.
Proof.
  intros Hdup (Hnd & Hk & _).
  unfold areAllCoursesTaken. apply Nat.eqb_neq.
  rewrite size_keys.
  pose proof (NoDup_incl_lt _ _ Hnd Hk Hdup) as Hlt.
  rewrite uids_length in Hlt. lia.
Qed.

(** With a repeated UID the resolver returns no plan: it returns [null]
    or the evaluator's error propagates. *)
Lemma duplicate_uid_no_plan cs :
  has_duplicate_uid cs ->
  determineMajorPlan cs = Normal None \/
  determineMajorPlan cs = Throw unexpected_structure.
Proof.
  intros Hdup. apply has_duplicate_uid_not_NoDup in Hdup.
  rewrite determineMajorPlan_eq.
  destruct (while_loop_rounds (length cs) (initial_state cs)) as [k Hk].
  destruct (while_loop (length cs) (initial_state cs)) as [st_f|e] eqn:Hw.
  - left.
    destruct (rounds_invariant (length cs) (keys_inv cs)) with (2 := Hk)
      as [Hinv Hc].
    + intros st st' HI _ Hb. eapply keys_inv_step; eauto.
    + apply keys_inv_initial.
    + unfold loop_cond in Hc.
      rewrite (keys_inv_not_all_taken cs st_f Hdup Hinv) in Hc.
      simpl in Hc. now rewrite Hc.
  - right. f_equal.
    clear Hw. remember (Throw e) as r eqn:Hr. revert Hr.
    induction Hk as [st Hc | st e' Hc Hb | st st' k r Hc Hb _ IH];
      intros Hr; [discriminate | | auto].
    injection Hr as ->. unfold loop_body in Hb.
    destruct (array_filter filter_callback (courses st) (takenCoursesMap st))
      as [[r m]|e'] eqn:Hscan; [discriminate|]. injection Hb as ->.
    clear Hc. revert Hscan. generalize (takenCoursesMap st).
    induction (courses st) as [|c rest IHl]; intros m Hscan; [discriminate|].
    rewrite array_filter_cons in Hscan.
    destruct (isPreReqSatisfied (prereqs c) m) as [[|]|e'] eqn:Hsat.
    + eauto.
    + destruct (array_filter filter_callback rest m) as [[? ?]|e'] eqn:E;
        [discriminate|]. injection Hscan as ->. eauto.
    + injection Hscan as ->. eapply isPreReqSatisfied_throw; eauto.
Qed.

(** On well-formed prerequisites the resolver does not throw. *)
Lemma well_formed_returns cs :
  all_well_formed cs = true -> exists r, determineMajorPlan cs = Normal r.
Proof.
  intros Hwf. rewrite determineMajorPlan_eq.
  destruct (while_loop_rounds (length cs) (initial_state cs)) as [k Hk].
  destruct (rounds_no_throw (length cs) (fun st => incl (courses st) cs))
    with (3 := Hk) as [st_f ->].
  - intros st st' HI _ Hb.
    apply loop_body_inv in Hb as (r & m & Hscan & ->). simpl.
    eapply incl_tran; [eapply array_filter_incl|]; eauto.
  - intros st HI. apply loop_body_no_throw.
    eapply all_well_formed_incl; eauto.
  - apply incl_refl.
  - destruct (solutionIsPossible st_f); eauto.
Qed.

(** C9 (as amended). An input with well-formed tags in which two
    entries have the same UID gets [null]. *)
Theorem duplicate_uid_returns_null (cs : list Course) :
  has_duplicate_uid cs ->
  all_well_formed cs = true ->
  determineMajorPlan cs = Normal None.
Proof.
  intros Hdup Hwf.
  destruct (duplicate_uid_no_plan cs Hdup) as [H|H]; auto.
  destruct (well_formed_returns cs Hwf) as [r Hr]. congruence.
Qed.

Lemma duplicate_uid_returns_null_witness :
  determineMajorPlan
    [ mkCourse (CS 1) (mkPreReq AND []);
      mkCourse (CS 1) (mkPreReq AND []) ] = Normal None.
Proof.
  apply duplicate_uid_returns_null.
  - exists 0, 1.
    exists (mkCourse (CS 1) (mkPreReq AND [])),
           (mkCourse (CS 1) (mkPreReq AND [])).
    repeat split. discriminate.
  - reflexivity.
Defined.

(** C9 as stated fails where a tag is malformed: the input has two
    entries with one UID, and the error is thrown, not [null]
    returned. *)
Lemma duplicate_uid_malformed_throws :
  let cs := [ mkCourse (CS 1) (mkPreReq "xor" []);
              mkCourse (CS 1) (mkPreReq AND []) ] in
  has_duplicate_uid cs /\
  determineMajorPlan cs = Throw unexpected_structure /\
  determineMajorPlan cs <> Normal None.
Proof.
  intros cs. split; [|split].
  - exists 0, 1.
    exists (mkCourse (CS 1) (mkPreReq "xor" [])),
           (mkCourse (CS 1) (mkPreReq AND [])).
    repeat split. discriminate.
  - reflexivity.
  - discriminate.
Qed.

(** *** Lists without repeated UIDs *)

Lemma plan_inv_initial cs : plan_inv cs (initial_state cs).
Proof. split; simpl; [constructor | apply Permutation_refl]. Qed.

Lemma plan_inv_NoDup cs st :
  NoDup (uids cs) -> plan_inv cs st ->
  NoDup (JSMap.keys (takenCoursesMap st) ++ uids (courses st)).
Proof.
  intros Hnd [Hj Hp].
  rewrite (justified_keys _ Hj), <- uids_app.
  eapply Permutation_NoDup; [|exact Hnd].
  unfold uids. now apply Permutation_map.
Qed.

Lemma plan_inv_step cs st st' :
  NoDup (uids cs) -> plan_inv cs st -> loop_body st = Normal st' ->
  plan_inv cs st'.
Proof.
  intros Hnd Hinv Hb.
  pose proof (plan_inv_NoDup cs st Hnd Hinv) as Hnd'.
  destruct Hinv as [Hj Hp].
  apply loop_body_inv in Hb as (r & m & Hscan & ->).
  destruct (array_filter_fresh _ _ _ _ Hnd' Hj Hscan) as [Hj' Hp'].
  split; simpl; auto.
  eapply Permutation_trans; eauto.
Qed.

Lemma plan_inv_count cs st :
  plan_inv cs st ->
  JSMap.size (takenCoursesMap st) + length (courses st) = length cs.
Proof.
  intros [_ Hp]. apply Permutation_length in Hp.
  rewrite length_app in Hp. unfold JSMap.values in Hp.
  rewrite length_map in Hp. unfold JSMap.size. lia.
Qed.

(** While the loop runs there are courses remaining. *)
Lemma plan_inv_remaining cs st :
  plan_inv cs st -> loop_cond (length cs) st = true ->
  0 < length (courses st).
Proof.
  intros Hinv Hc. apply plan_inv_count in Hinv.
  unfold loop_cond, areAllCoursesTaken in Hc.
  apply andb_true_iff in Hc as [Hc _].
  apply negb_true_iff, Nat.eqb_neq in Hc. lia.
Qed.

Lemma rounds_le_remaining cs st k r :
  NoDup (uids cs) ->
  rounds (length cs) st k r -> plan_inv cs st ->
  k <= length (courses st).
Proof.
  intros Hnd.
  induction 1 as [st Hc | st e Hc Hb | st st' k r Hc Hb Hr IH]; intros Hinv.
  - lia.
  - pose proof (plan_inv_remaining cs st Hinv Hc). lia.
  - pose proof (plan_inv_remaining cs st Hinv Hc).
    destruct (loop_body_progress_or_last (length cs) st st' Hb) as [Hlt|Hlast].
    + specialize (IH (plan_inv_step cs st st' Hnd Hinv Hb)). lia.
    + inversion Hr; subst; try congruence. lia.
Qed.

(** Where the UIDs of the input are pairwise distinct, the loop of
    [determineMajorPlan] completes after at most [|courses|] rounds; on
    every input a round shortens the remaining list or is the last
    one. *)
Lemma loop_terminates_distinct_uids (cs : list Course) :
  NoDup (uids cs) ->
  exists k r,
    rounds (length cs) (initial_state cs) k r /\
    while_loop (length cs) (initial_state cs) = r /\
    k <= length cs /\
    forall st st',
      loop_body st = Normal st' ->
      length (courses st') < length (courses st) \/
      loop_cond (length cs) st' = false.
Proof.
  intros Hnd.
  destruct (while_loop_rounds (length cs) (initial_state cs)) as [k Hk].
  exists k, (while_loop (length cs) (initial_state cs)).
  split; [exact Hk|]. split; [reflexivity|]. split.
  - pose proof (rounds_le_remaining cs _ _ _ Hnd Hk (plan_inv_initial cs))
      as Hle.
    unfold initial_state in Hle. simpl in Hle. lia.
  - intros st st'. apply loop_body_progress_or_last.
Qed.

(** C8 (the code at the failing inputs). On two courses that share a
    UID the loop runs three rounds, one more than the input has
    courses: the second round empties the remaining list, but the map
    holds one entry for the two courses, so [areAllCoursesTaken] stays
    false and a third round runs on the empty list before [null] is
    returned.  The first input repeats one subject and classId; in the
    second the two courses differ in both and collide in
    [getCourseUID]. *)
Theorem duplicate_uid_three_rounds :
  let repeated :=
    [ mkCourse (CS 1) (mkPreReq AND [InfoValue (CS 1)]);
      mkCourse (CS 1) (mkPreReq AND []) ] in
  let colliding :=
    [ mkCourse (mkCourseInfo 1 "CS1")
        (mkPreReq AND [InfoValue (mkCourseInfo 11 "CS")]);
      mkCourse (mkCourseInfo 11 "CS") (mkPreReq AND []) ] in
  (third_round_on_empty_list repeated /\ ~ 3 <= length repeated) /\
  (third_round_on_empty_list colliding /\ ~ 3 <= length colliding).
Proof.
  intros repeated colliding.
  split; (split; [|simpl; lia]); unfold third_round_on_empty_list.
  - do 3 eexists.
    split; [reflexivity|]. split; [reflexivity|]. split; [reflexivity|].
    split; [reflexivity|]. split; [reflexivity|]. split; [|reflexivity].
    eapply rounds_next; [reflexivity | reflexivity |].
    eapply rounds_next; [reflexivity | reflexivity |].
    eapply rounds_next; [reflexivity | reflexivity |].
    apply rounds_exit. reflexivity.
  - do 3 eexists.
    split; [reflexivity|]. split; [reflexivity|]. split; [reflexivity|].
    split; [reflexivity|]. split; [reflexivity|]. split; [|reflexivity].
    eapply rounds_next; [reflexivity | reflexivity |].
    eapply rounds_next; [reflexivity | reflexivity |].
    eapply rounds_next; [reflexivity | reflexivity |].
    apply rounds_exit. reflexivity.
Qed.

(* ===================================================================== *)
(** ** Leaves and satisfaction *)
(* ===================================================================== *)

Lemma leaves_node ty vs :
  leaves (mkPreReq ty vs) = flat_map value_leaves vs.
Proof. reflexivity. Qed.

Lemma required_leaves_node ty vs :
  required_leaves (mkPreReq ty vs) =
  if String.eqb ty AND then flat_map value_required_leaves vs else [].
Proof. reflexivity. Qed.

(** An unsatisfied tree, well-formed and without empty ["or"] node,
    has a leaf whose course is not in the map. *)
Lemma unsatisfied_missing_leaf m p :
  well_formed p = true -> no_empty_any p = true ->
  isPreReqSatisfied p m = Normal false ->
  exists l, In l (leaves p) /\ JSMap.has (getCourseUID l) m = false.
Proof.
  revert p.
  apply (PreReq_tree_ind
    (fun p => well_formed p = true -> no_empty_any p = true ->
              isPreReqSatisfied p m = Normal false ->
              exists l, In l (leaves p) /\
                        JSMap.has (getCourseUID l) m = false)
    (fun v => match v with
              | InfoValue _ => True
              | PreReqNode q => well_formed q = true /\ no_empty_any q = true
              end ->
              isPrereqValueTaken v m = Normal false ->
              exists l, In l (value_leaves v) /\
                        JSMap.has (getCourseUID l) m = false)).
  - intros ty vs IH Hwf Hnea Hev.
    simpl in Hwf, Hnea.
    apply andb_true_iff in Hwf as [Hty Hwf].
    apply andb_true_iff in Hnea as [Hne Hnea].
    rewrite forallb_forall in Hwf, Hnea. rewrite Forall_forall in IH.
    assert (Hchild : forall x, In x vs ->
              isPrereqValueTaken x m = Normal false ->
              exists l, In l (leaves (mkPreReq ty vs)) /\
                        JSMap.has (getCourseUID l) m = false).
    { intros x Hx Hfx.
      destruct (IH x Hx) as (l & Hl & Hhas); auto.
      - specialize (Hwf x Hx). specialize (Hnea x Hx).
        destruct x; auto.
      - exists l. split; auto. rewrite leaves_node.
        apply in_flat_map. eauto. }
    simpl in Hev.
    destruct (String.eqb ty AND) eqn:Eand.
    + apply every_false_inv in Hev as (x & Hx & Hfx). eauto.
    + simpl in Hty. rewrite Hty in Hev, Hne.
      apply some_false_iff in Hev.
      destruct vs as [|x vs']; [discriminate|].
      inversion Hev; subst. apply (Hchild x); simpl; auto.
  - intros c _ Hev. simpl in Hev. injection Hev as Hev.
    exists c. simpl. auto.
  - intros p IH [Hwf Hnea] Hev. simpl in *. auto.
Qed.

(** A satisfied tree has every required leaf in the map. *)
Lemma required_leaves_taken m p :
  isPreReqSatisfied p m = Normal true ->
  forall l, In l (required_leaves p) -> JSMap.has (getCourseUID l) m = true.
Proof.
  revert p.
  apply (PreReq_tree_ind
    (fun p => isPreReqSatisfied p m = Normal true ->
              forall l, In l (required_leaves p) ->
                        JSMap.has (getCourseUID l) m = true)
    (fun v => isPrereqValueTaken v m = Normal true ->
              forall l, In l (value_required_leaves v) ->
                        JSMap.has (getCourseUID l) m = true)).
  - intros ty vs IH Hev l Hl.
    rewrite required_leaves_node in Hl. simpl in Hev.
    destruct (String.eqb ty AND); [|destruct Hl].
    apply every_true_iff in Hev.
    apply in_flat_map in Hl as (x & Hx & Hl).
    rewrite Forall_forall in IH, Hev. eapply IH; eauto.
  - intros c Hev l [<-|[]]. simpl in Hev. now injection Hev.
  - intros p IH Hev l Hl. simpl in *. auto.
Qed.

(* ===================================================================== *)
(** ** Finite graphs without cycles *)
(* ===================================================================== *)

Section finite_acyclic.

Variable X : Type.
Variable R : X -> X -> Prop.
Hypothesis R_acyclic : forall x, ~ clos_trans X R x x.

(** In a non-empty list, not every element can have a successor in
    the list. *)
Lemma not_all_have_successor (l : list X) :
  l <> [] ->
  ~ (forall x, In x l -> exists y, In y l /\ R x y).
Proof.
  intros Hne Hsucc.
  assert (Hmin : forall x, In x l ->
            ~ (forall y, In y l -> ~ clos_trans X R x y)).
  { intros x Hx Hminimal.
    destruct (Hsucc x Hx) as (y & Hy & Hxy).
    apply (Hminimal y Hy). now apply t_step. }
  clear Hsucc. induction l as [|a l IH]; [congruence|].
  destruct l as [|b l].
  - apply (Hmin a (or_introl eq_refl)).
    intros y [<-|[]]. apply R_acyclic.
  - apply IH; [discriminate|].
    intros x Hx Hminimal.
    apply (Hmin a (or_introl eq_refl)).
    intros y [<-|Hy] Hay; [now apply (R_acyclic a)|].
    apply (Hmin x (or_intror Hx)).
    intros y' [<-|Hy'] Hxy'.
    + apply (Hminimal y Hy). eapply t_trans; eauto.
    + now apply (Hminimal y' Hy').
Qed.

(** A strictly decreasing rank rules cycles out. *)
Lemma ranked_no_cycle (R' : X -> X -> Prop) (rank : X -> nat) :
  (forall x y, R' x y -> rank y < rank x) ->
  forall x, ~ clos_trans X R' x x.
Proof.
  intros Hrank.
  assert (H : forall x y, clos_trans X R' x y -> rank y < rank x).
  { induction 1; eauto. lia. }
  intros x Hx. apply H in Hx. lia.
Qed.

End finite_acyclic.

(* ===================================================================== *)
(** ** Resolution of acyclic inputs *)
(* ===================================================================== *)

Section acyclic_input.

Variable cs : list Course.
Hypothesis cs_distinct : NoDup (uids cs).
Hypothesis cs_well_formed : all_well_formed cs = true.
Hypothesis cs_no_empty_any : all_no_empty_any cs = true.
Hypothesis cs_acyclic : acyclic cs.
Hypothesis cs_resolvable : resolvable cs.

Lemma plan_inv_remaining_incl st :
  plan_inv cs st -> incl (courses st) cs.
Proof.
  intros [_ Hp] c Hc. eapply Permutation_in.
  - apply Permutation_sym. exact Hp.
  - apply in_app_iff. auto.
Qed.

(** A remaining course that is unsatisfied references a remaining
    course. *)
Lemma unsatisfied_references_remaining st (c : Course) :
  plan_inv cs st -> In c (courses st) ->
  isPreReqSatisfied (prereqs c) (takenCoursesMap st) = Normal false ->
  exists d, In d (courses st) /\ references cs c d.
Proof.
  intros Hinv Hc Hev.
  pose proof (plan_inv_remaining_incl st Hinv) as Hincl.
  assert (Hccs : In c cs) by auto.
  unfold all_well_formed, all_no_empty_any in *.
  rewrite forallb_forall in cs_well_formed, cs_no_empty_any.
  destruct (unsatisfied_missing_leaf _ _ (cs_well_formed c Hccs)
              (cs_no_empty_any c Hccs) Hev) as (l & Hl & Hhas).
  destruct (In_uids_inv _ _ (cs_resolvable c Hccs l Hl)) as (d & Hd & Hdcs).
  exists d. split.
  - destruct Hinv as [Hj Hp].
    apply (Permutation_in _ Hp) in Hdcs.
    apply in_app_iff in Hdcs as [Hdm|Hdr]; auto.
    exfalso. apply has_false_not_In in Hhas. apply Hhas.
    rewrite (justified_keys _ Hj), <- Hd. now apply In_uids.
  - repeat split; auto. rewrite Hd. now apply in_map.
Qed.

(** A scan of a non-empty remaining list promotes a course. *)
Lemma scan_makes_progress st r m :
  plan_inv cs st -> courses st <> [] ->
  array_filter filter_callback (courses st) (takenCoursesMap st)
    = Normal (r, m) ->
  length r < length (courses st).
Proof.
  intros Hinv Hne Hscan.
  pose proof (array_filter_length _ _ _ _ Hscan) as Hle.
  destruct (Nat.eq_dec (length r) (length (courses st))) as [Heq|]; [|lia].
  exfalso.
  destruct (array_filter_no_progress _ _ _ _ Hscan Heq) as (_ & _ & Hall).
  rewrite Forall_forall in Hall.
  apply (not_all_have_successor Course (references cs) cs_acyclic
           (courses st) Hne).
  intros c Hc. apply unsatisfied_references_remaining; auto.
Qed.

(** From a state that satisfies the invariant the loop exits with
    every course taken. *)
Lemma loop_takes_all_courses : forall w st,
  length (courses st) = w ->
  plan_inv cs st -> solutionIsPossible st = true ->
  exists st_f,
    while_loop (length cs) st = Normal st_f /\
    plan_inv cs st_f /\ solutionIsPossible st_f = true /\
    courses st_f = [].
Proof.
  induction w as [w IH] using lt_wf_ind. intros st Hw Hinv Hposs.
  rewrite while_loop_eq.
  destruct (loop_cond (length cs) st) eqn:Hc.
  - pose proof (plan_inv_remaining cs st Hinv Hc) as Hpos.
    destruct (loop_body_no_throw st) as [st' Hb].
    { eapply all_well_formed_incl; eauto.
      now apply plan_inv_remaining_incl. }
    rewrite Hb.
    pose proof (plan_inv_step cs st st' cs_distinct Hinv Hb) as Hinv'.
    apply loop_body_inv in Hb as (r & m & Hscan & ->).
    assert (Hlt : length r < length (courses st)).
    { eapply scan_makes_progress; eauto.
      intros E. rewrite E in Hpos. simpl in Hpos. lia. }
    apply (IH (length r)); auto; try lia.
    simpl. now apply Nat.ltb_lt.
  - exists st.
    split; [reflexivity|]. split; [exact Hinv|]. split; [exact Hposs|].
    unfold loop_cond in Hc. rewrite Hposs, andb_true_r in Hc.
    apply negb_false_iff, Nat.eqb_eq in Hc.
    pose proof (plan_inv_count cs st Hinv) as Hcount.
    apply length_zero_iff_nil. lia.
Qed.

(** The resolver returns the values of a justified map that holds
    the input courses. *)
Lemma acyclic_plan :
  exists m,
    determineMajorPlan cs = Normal (Some (JSMap.values m)) /\
    justified m /\ Permutation (JSMap.values m) cs.
Proof.
  destruct (loop_takes_all_courses (length cs) (initial_state cs))
    as (st_f & Hw & [Hj Hp] & Hposs & Hnil); auto.
  - apply plan_inv_initial.
  - exists (takenCoursesMap st_f).
    rewrite determineMajorPlan_eq, Hw, Hposs.
    repeat split; auto.
    rewrite Hnil, app_nil_r in Hp. now apply Permutation_sym.
Qed.

End acyclic_input.

(* ===================================================================== *)
(** ** Positions in the plan *)
(* ===================================================================== *)

Lemma nth_error_middle {A : Type} (l1 : list A) x l2 :
  nth_error (l1 ++ x :: l2) (length l1) = Some x.
Proof.
  rewrite nth_error_app2 by lia. now rewrite Nat.sub_diag.
Qed.

Lemma earlier_trans plan e d c :
  NoDup plan -> earlier plan e d -> earlier plan d c -> earlier plan e c.
Proof.
  intros Hnd (i & j & Hi & Hj & Hij) (j' & k & Hj' & Hk & Hjk).
  assert (j = j').
  { rewrite NoDup_nth_error in Hnd. apply Hnd.
    - apply nth_error_Some. congruence.
    - congruence. }
  subst j'. exists i, k. repeat split; auto. lia.
Qed.

Lemma justified_satisfied_in_order m :
  justified m -> satisfied_in_order (JSMap.values m).
Proof.
  intros Hj l1 c l2 Hsplit. eapply justified_prefix; eauto.
Qed.

(** In a plan whose courses are satisfied in order, a course comes
    after the courses it requires. *)
Lemma requires_earlier cs plan c d :
  NoDup (uids cs) -> Permutation plan cs -> satisfied_in_order plan ->
  requires cs c d -> earlier plan d c.
Proof.
  intros Hnd Hp Hsat (Hc & Hd & Hreq).
  apply (Permutation_in _ (Permutation_sym Hp)) in Hc.
  apply in_split in Hc as (l1 & l2 & Hsplit).
  pose proof (Hsat l1 c l2 Hsplit) as Hev.
  apply in_map_iff in Hreq as (l & Hl & Hlreq).
  pose proof (required_leaves_taken _ _ Hev l Hlreq) as Hhas.
  apply has_In_keys in Hhas.
  rewrite keys_entries in Hhas.
  apply In_uids_inv in Hhas as (d' & Hd' & Hd'l1).
  assert (d' = d).
  { apply (uid_injective_on cs); auto; [|congruence].
    apply (Permutation_in _ Hp). rewrite Hsplit.
    apply in_app_iff. auto. }
  subst d'. apply in_split in Hd'l1 as (a & b & ->).
  exists (length a), (length (a ++ d :: b)). repeat split.
  - rewrite Hsplit, <- app_assoc. simpl. apply nth_error_middle.
  - rewrite Hsplit. apply nth_error_middle.
  - rewrite length_app. simpl. lia.
Qed.

Lemma requires_trans_earlier cs plan :
  NoDup (uids cs) -> Permutation plan cs -> satisfied_in_order plan ->
  forall c d, clos_trans Course (requires cs) c d -> earlier plan d c.
Proof.
  intros Hnd Hp Hsat.
  assert (Hndp : NoDup plan).
  { apply NoDup_uids_NoDup. eapply Permutation_NoDup; [|exact Hnd].
    unfold uids. apply Permutation_map. now apply Permutation_sym. }
  induction 1 as [c d H | c x d _ IH1 _ IH2].
  - eapply requires_earlier; eauto.
  - eapply earlier_trans; eauto.
Qed.

(** C1 (as amended). For an input with pairwise distinct UIDs,
    well-formed tags and no empty ["or"] node, whose dependency graph
    has no cycle and whose leaf references all name courses of the
    input, [determineMajorPlan] returns a plan that is a permutation of
    the input, in which every course has its prerequisite satisfied by
    the courses before it, and in which a course comes after every
    course it requires, directly or through other courses, at leaves
    reached through ["and"] nodes only. *)
Theorem acyclic_input_resolves (cs : list Course) :
  NoDup (uids cs) ->
  all_well_formed cs = true ->
  all_no_empty_any cs = true ->
  acyclic cs ->
  resolvable cs ->
  exists plan,
    determineMajorPlan cs = Normal (Some plan) /\
    Permutation plan cs /\
    satisfied_in_order plan /\
    forall c d, clos_trans Course (requires cs) c d -> earlier plan d c.
Proof.
  intros Hnd Hwf Hnea Hacyc Hres.
  destruct (acyclic_plan cs Hnd Hwf Hnea Hacyc Hres) as (m & Hplan & Hj & Hp).
  exists (JSMap.values m).
  pose proof (justified_satisfied_in_order m Hj) as Hsat.
  repeat split; auto.
  now apply requires_trans_earlier.
Qed.

(* ===================================================================== *)
(** ** Explicit inputs for the resolution theorem *)
(* ===================================================================== *)

Lemma ranked_acyclic cs (rank : Course -> nat) :
  (forall c d, references cs c d -> rank d < rank c) -> acyclic cs.
Proof. intros H. unfold acyclic. now apply ranked_no_cycle with rank. Qed.

(** Splits a membership in an explicit list into its cases. *)
Ltac in_cases H :=
  simpl in H;
  repeat match type of H with
         | _ \/ _ => destruct H as [H|H]
         end;
  try contradiction.

(** [references] between the courses of an explicit list decreases an
    explicit rank. *)
Ltac solve_rank :=
  let c := fresh "c" in
  let d := fresh "d" in
  let Hc := fresh "Hc" in
  let Hd := fresh "Hd" in
  let Hin := fresh "Hin" in
  intros c d (Hc & Hd & Hin);
  in_cases Hc; in_cases Hd; subst c; subst d;
  vm_compute in Hin; in_cases Hin; try discriminate Hin;
  simpl; lia.

Ltac solve_resolvable :=
  let c := fresh "c" in
  let l := fresh "l" in
  let Hc := fresh "Hc" in
  let Hl := fresh "Hl" in
  intros c Hc l Hl;
  in_cases Hc; subst c; in_cases Hl; subst l;
  vm_compute; tauto.

Ltac solve_NoDup :=
  repeat constructor; simpl; intuition discriminate.

(** The positions of an explicit plan. *)
Ltac not_earlier H :=
  let i := fresh "i" in
  let j := fresh "j" in
  let Hi := fresh "Hi" in
  let Hj := fresh "Hj" in
  let Hij := fresh "Hij" in
  destruct H as (i & j & Hi & Hj & Hij);
  repeat (destruct i as [|i]; simpl in Hi; try discriminate Hi);
  repeat (destruct j as [|j]; simpl in Hj; try discriminate Hj);
  lia.

Lemma acyclic_input_resolves_witness :
  exists plan,
    determineMajorPlan spec_example = Normal (Some plan) /\
    Permutation plan spec_example /\
    satisfied_in_order plan /\
    forall c d,
      clos_trans Course (requires spec_example) c d -> earlier plan d c.
Proof.
  apply (acyclic_input_resolves spec_example).
  - unfold spec_example. solve_NoDup.
  - reflexivity.
  - reflexivity.
  - apply (ranked_acyclic spec_example
             (fun c => match classId c with
                       | 1%Z => 2 | 3%Z => 1 | _ => 0
                       end)).
    unfold spec_example. solve_rank.
  - unfold spec_example. solve_resolvable.
Defined.

(** C1 as stated fails.  An ["or"] node is satisfied by one child, so a
    course can stand before a course it references; an empty ["or"]
    node is never satisfied; two entries with one UID never fill the
    map; a malformed tag makes the evaluator throw.  Each input below
    has an acyclic dependency graph and resolvable references. *)
Lemma reference_order_counterexamples :
  let any_order :=
    [ mkCourse (CS 1) (mkPreReq AND []);
      mkCourse (CS 2) (mkPreReq OR [InfoValue (CS 1); InfoValue (CS 3)]);
      mkCourse (CS 3) (mkPreReq AND []) ] in
  let empty_any := [ mkCourse (CS 1) (mkPreReq OR []) ] in
  let repeated :=
    [ mkCourse (CS 1) (mkPreReq AND []);
      mkCourse (CS 1) (mkPreReq AND []) ] in
  let malformed := [ mkCourse (CS 1) (mkPreReq "xor" []) ] in
  (acyclic any_order /\ resolvable any_order /\
   determineMajorPlan any_order = Normal (Some any_order) /\
   ~ resolves_in_reference_order any_order) /\
  (acyclic empty_any /\ resolvable empty_any /\
   determineMajorPlan empty_any = Normal None /\
   ~ resolves_in_reference_order empty_any) /\
  (acyclic repeated /\ resolvable repeated /\
   determineMajorPlan repeated = Normal None /\
   ~ resolves_in_reference_order repeated) /\
  (acyclic malformed /\ resolvable malformed /\
   determineMajorPlan malformed = Throw unexpected_structure /\
   ~ resolves_in_reference_order malformed).
Proof.
  intros any_order empty_any repeated malformed.
  repeat match goal with |- _ /\ _ => split end.
  - apply (ranked_acyclic any_order
             (fun c => match classId c with 2%Z => 1 | _ => 0 end)).
    unfold any_order. solve_rank.
  - unfold any_order. solve_resolvable.
  - reflexivity.
  - intros (plan & Hplan & _ & Hord).
    assert (E : determineMajorPlan any_order = Normal (Some any_order))
      by reflexivity.
    rewrite E in Hplan. injection Hplan as <-.
    assert (Href : references any_order
                     (mkCourse (CS 2)
                        (mkPreReq OR [InfoValue (CS 1); InfoValue (CS 3)]))
                     (mkCourse (CS 3) (mkPreReq AND []))).
    { unfold references, any_order. simpl. tauto. }
    apply t_step, Hord in Href. unfold any_order in Href.
    not_earlier Href.
  - apply (ranked_acyclic empty_any (fun _ => 0)).
    unfold empty_any. solve_rank.
  - unfold empty_any. solve_resolvable.
  - reflexivity.
  - intros (plan & Hplan & _). discriminate Hplan.
  - apply (ranked_acyclic repeated (fun _ => 0)).
    unfold repeated. solve_rank.
  - unfold repeated. solve_resolvable.
  - reflexivity.
  - intros (plan & Hplan & _). discriminate Hplan.
  - apply (ranked_acyclic malformed (fun _ => 0)).
    unfold malformed. solve_rank.
  - unfold malformed. solve_resolvable.
  - reflexivity.
  - intros (plan & Hplan & _). discriminate Hplan.
Qed.

(* ===================================================================== *)
(** ** More on the evaluator *)
(* ===================================================================== *)

Lemma every_forallb {A : Type} (f : A -> Completion bool) (g : A -> bool) l :
  Forall (fun x => f x = Normal (g x)) l ->
  every f l = Normal (forallb g l).
Proof.
  induction 1 as [|x l Hx _ IH]; simpl; auto.
  rewrite Hx. destruct (g x); auto.
Qed.

Lemma some_existsb {A : Type} (f : A -> Completion bool) (g : A -> bool) l :
  Forall (fun x => f x = Normal (g x)) l ->
  some f l = Normal (existsb g l).
Proof.
  induction 1 as [|x l Hx _ IH]; simpl; auto.
  rewrite Hx. destruct (g x); auto.
Qed.

Lemma every_ext {A : Type} (f g : A -> Completion bool) l :
  Forall (fun x => f x = g x) l -> every f l = every g l.
Proof.
  induction 1 as [|x l Hx _ IH]; simpl; auto. now rewrite Hx, IH.
Qed.

Lemma some_ext {A : Type} (f g : A -> Completion bool) l :
  Forall (fun x => f x = g x) l -> some f l = some g l.
Proof.
  induction 1 as [|x l Hx _ IH]; simpl; auto. now rewrite Hx, IH.
Qed.

(** The array methods stop at the child that decides the result. *)
Lemma every_decided {A : Type} (f : A -> Completion bool) l1 x l2 :
  Forall (fun y => f y = Normal true) l1 -> f x = Normal false ->
  every f (l1 ++ x :: l2) = Normal false.
Proof.
  induction 1 as [|y l1 Hy _ IH]; simpl; intros Hx.
  - now rewrite Hx.
  - rewrite Hy. auto.
Qed.

Lemma some_decided {A : Type} (f : A -> Completion bool) l1 x l2 :
  Forall (fun y => f y = Normal false) l1 -> f x = Normal true ->
  some f (l1 ++ x :: l2) = Normal true.
Proof.
  induction 1 as [|y l1 Hy _ IH]; simpl; intros Hx.
  - now rewrite Hx.
  - rewrite Hy. auto.
Qed.

(** X1. On a tree whose tags are all ["and"] or ["or"] the evaluator
    returns the value of the tree read as a boolean formula over "the
    course of this leaf is taken": short-circuiting changes nothing. *)
Theorem evaluator_formula_value (p : PreReq) (m : JSMap.t) :
  well_formed p = true ->
  isPreReqSatisfied p m = Normal (formula_value p m).
Proof.
  revert p.
  apply (PreReq_tree_ind
    (fun p => well_formed p = true ->
              isPreReqSatisfied p m = Normal (formula_value p m))
    (fun v => match v with
              | InfoValue _ => True
              | PreReqNode q => well_formed q = true
              end ->
              isPrereqValueTaken v m =
              Normal match v with
                     | InfoValue c => isCourseTaken c m
                     | PreReqNode q => formula_value q m
                     end)).
  - intros ty vs IH Hwf. simpl in Hwf.
    apply andb_true_iff in Hwf as [Hty Hvs].
    rewrite forallb_forall in Hvs.
    assert (Hall : Forall (fun v => isPrereqValueTaken v m =
                     Normal match v with
                            | InfoValue c => isCourseTaken c m
                            | PreReqNode q => formula_value q m
                            end) vs).
    { rewrite Forall_forall in *. intros v Hv. apply IH; auto.
      specialize (Hvs v Hv). destruct v; auto. }
    simpl. destruct (String.eqb ty AND).
    + now apply every_forallb.
    + simpl in Hty. rewrite Hty. now apply some_existsb.
  - reflexivity.
  - intros p IH Hwf. simpl. auto.
Qed.

Lemma evaluator_formula_value_witness :
  isPreReqSatisfied
    (mkPreReq OR [PreReqNode (mkPreReq AND [InfoValue (CS 1)]);
                  InfoValue (CS 2)])
    [entry (mkCourse (CS 2) (mkPreReq AND []))]
  = Normal (formula_value
      (mkPreReq OR [PreReqNode (mkPreReq AND [InfoValue (CS 1)]);
                    InfoValue (CS 2)])
      [entry (mkCourse (CS 2) (mkPreReq AND []))]).
Proof.
  apply (evaluator_formula_value
           (mkPreReq OR [PreReqNode (mkPreReq AND [InfoValue (CS 1)]);
                         InfoValue (CS 2)])
           [entry (mkCourse (CS 2) (mkPreReq AND []))]).
  reflexivity.
Defined.

(** X2. The evaluator throws nothing but the "Unexpected prereq
    structure." error, and only on a tree that has a tag other than
    ["and"] and ["or"]. *)
Theorem evaluator_throws_only_malformed (p : PreReq) (m : JSMap.t)
  (e : Error) :
  isPreReqSatisfied p m = Throw e ->
  e = unexpected_structure /\ well_formed p = false.
Proof.
  intros H. split.
  - eapply isPreReqSatisfied_throw; eauto.
  - destruct (well_formed p) eqn:Hwf; auto.
    destruct (well_formed_no_throw p m Hwf) as [b Hb]. congruence.
Qed.

Lemma evaluator_throws_only_malformed_witness :
  unexpected_structure = unexpected_structure /\
  well_formed (mkPreReq AND [PreReqNode (mkPreReq "xor" [])]) = false.
Proof.
  apply (evaluator_throws_only_malformed
           (mkPreReq AND [PreReqNode (mkPreReq "xor" [])]) JSMap.empty).
  reflexivity.
Defined.

(** X3. Evaluation stops at the child that decides a node: in an
    ["and"] node the first unsatisfied child, in an ["or"] node the
    first satisfied one.  The children after it are not evaluated, so a
    malformed node among them raises no error. *)
Theorem evaluator_short_circuit (b : bool) (vs1 : list PreReqValue)
  (v : PreReqValue) (vs2 : list PreReqValue) (m : JSMap.t) :
  Forall (fun x => isPrereqValueTaken x m = Normal (negb b)) vs1 ->
  isPrereqValueTaken v m = Normal b ->
  isPreReqSatisfied (mkPreReq (if b then OR else AND) (vs1 ++ v :: vs2)) m
    = Normal b.
Proof.
  intros H1 Hv. destruct b; simpl in H1.
  - rewrite isPreReqSatisfied_or. now apply some_decided.
  - rewrite isPreReqSatisfied_and. now apply every_decided.
Qed.

Lemma evaluator_short_circuit_witness :
  isPreReqSatisfied
    (mkPreReq AND ([InfoValue (CS 1)] ++ InfoValue (CS 2)
                     :: [PreReqNode (mkPreReq "xor" [])]))
    [entry (mkCourse (CS 1) (mkPreReq AND []))]
  = Normal false.
Proof.
  apply (evaluator_short_circuit false [InfoValue (CS 1)] (InfoValue (CS 2))
           [PreReqNode (mkPreReq "xor" [])]
           [entry (mkCourse (CS 1) (mkPreReq AND []))]).
  - constructor; [reflexivity | constructor].
  - reflexivity.
Defined.

(** X4. The evaluator looks at the map only through [has] on the UIDs
    of the leaves of the tree: two maps that agree on them give the
    same completion, the thrown error included. *)
Theorem evaluator_depends_on_leaves (p : PreReq) (S T : JSMap.t) :
  (forall l, In l (leaves p) -> isCourseTaken l S = isCourseTaken l T) ->
  isPreReqSatisfied p S = isPreReqSatisfied p T.
Proof.
  revert p.
  apply (PreReq_tree_ind
    (fun p => (forall l, In l (leaves p) ->
                 isCourseTaken l S = isCourseTaken l T) ->
              isPreReqSatisfied p S = isPreReqSatisfied p T)
    (fun v => (forall l, In l (value_leaves v) ->
                 isCourseTaken l S = isCourseTaken l T) ->
              isPrereqValueTaken v S = isPrereqValueTaken v T)).
  - intros ty vs IH Hagree.
    assert (Hall : Forall (fun v => isPrereqValueTaken v S =
                                   isPrereqValueTaken v T) vs).
    { rewrite Forall_forall in *. intros v Hv. apply IH; auto.
      intros l Hl. apply Hagree. rewrite leaves_node.
      apply in_flat_map. eauto. }
    simpl. destruct (String.eqb ty AND); [now apply every_ext|].
    destruct (String.eqb ty OR); [now apply some_ext|reflexivity].
  - intros c Hagree. simpl. f_equal. apply Hagree. simpl. auto.
  - intros p IH Hagree. simpl. auto.
Qed.

Lemma evaluator_depends_on_leaves_witness :
  isPreReqSatisfied (mkPreReq AND [InfoValue (CS 1)])
    [entry (mkCourse (CS 1) (mkPreReq AND []))]
  = isPreReqSatisfied (mkPreReq AND [InfoValue (CS 1)])
      [entry (mkCourse (CS 2) (mkPreReq AND []));
       entry (mkCourse (CS 1) (mkPreReq OR []))].
Proof.
  apply (evaluator_depends_on_leaves (mkPreReq AND [InfoValue (CS 1)])).
  intros l Hl. simpl in Hl. destruct Hl as [<-|[]]. reflexivity.
Defined.

(* ===================================================================== *)
(** ** More on [getCourseUID] *)
(* ===================================================================== *)

Lemma string_length_append (s1 s2 : string) :
  String.length (s1 ++ s2) = String.length s1 + String.length s2.
Proof. induction s1 as [|a s1 IH]; simpl; auto. Qed.

Lemma string_append_cancel_l (s a b : string) :
  (s ++ a)%string = (s ++ b)%string -> a = b.
Proof.
  induction s as [|x s IH]; simpl; auto.
  intros H. injection H as H. auto.
Qed.

Lemma string_append_cancel_r (s : string) : forall a b : string,
  (a ++ s)%string = (b ++ s)%string -> a = b.
Proof.
  induction a as [|x a IH]; intros [|y b] H; auto.
  - apply (f_equal String.length) in H.
    simpl in H. rewrite string_length_append in H. lia.
  - apply (f_equal String.length) in H.
    simpl in H. rewrite string_length_append in H. lia.
  - simpl in H. injection H as -> H. f_equal. auto.
Qed.

(** Decimal printing loses nothing. *)
Lemma number_to_string_inj n n' :
  number_to_string n = number_to_string n' -> n = n'.
Proof.
  unfold number_to_string. intros H.
  assert (Hnn : forall z, Z.to_int z <> Decimal.Pos Decimal.Nil /\
                          Z.to_int z <> Decimal.Neg Decimal.Nil).
  { intros [|q|q]; simpl; split; try discriminate;
      intros E; injection E as E; now apply DecimalPos.Unsigned.to_uint_nonnil in E. }
  apply (f_equal NilZero.int_of_string) in H.
  rewrite !NilZero.isi in H by apply Hnn.
  injection H as H. now apply to_int_inj.
Qed.

Lemma string_of_uint_chars d :
  only_number_chars (NilEmpty.string_of_uint d) = true.
Proof. induction d; simpl; auto. Qed.

Lemma number_to_string_chars n :
  only_number_chars (number_to_string n) = true.
Proof.
  assert (H : forall d, only_number_chars (NilZero.string_of_uint d) = true).
  { intros d. destruct d; try apply string_of_uint_chars. reflexivity. }
  unfold number_to_string. destruct (Z.to_int n) as [d|d]; simpl; auto.
Qed.

(** A subject without number characters ends where the number begins. *)
Lemma subject_number_split : forall s1 s2 d1 d2 : string,
  free_of_number_chars s1 = true -> free_of_number_chars s2 = true ->
  only_number_chars d1 = true -> only_number_chars d2 = true ->
  (s1 ++ d1)%string = (s2 ++ d2)%string -> s1 = s2 /\ d1 = d2.
Proof.
  induction s1 as [|a s1 IH]; intros [|b s2] d1 d2 Hs1 Hs2 Hd1 Hd2 H;
    simpl in *.
  - auto.
  - subst d1. simpl in Hd1.
    apply andb_true_iff in Hs2 as [Hb _]. apply andb_true_iff in Hd1 as [Hb' _].
    rewrite Hb' in Hb. discriminate.
  - subst d2. simpl in Hd2.
    apply andb_true_iff in Hs1 as [Ha _]. apply andb_true_iff in Hd2 as [Ha' _].
    rewrite Ha' in Ha. discriminate.
  - injection H as -> H.
    apply andb_true_iff in Hs1 as [_ Hs1]. apply andb_true_iff in Hs2 as [_ Hs2].
    destruct (IH s2 d1 d2 Hs1 Hs2 Hd1 Hd2 H) as [-> ->]. auto.
Qed.

(** X5. [getCourseUID] separates courses that differ in one field
    only: with the same classId, different subjects give different
    UIDs, and with the same subject, different classIds do. *)
Theorem getCourseUID_separates_one_field (c1 c2 : CourseInfo) :
  classId c1 = classId c2 \/ subject c1 = subject c2 ->
  c1 <> c2 ->
  getCourseUID c1 <> getCourseUID c2.
Proof.
  destruct c1 as [n1 s1], c2 as [n2 s2]. unfold getCourseUID. simpl.
  intros [-> | ->] Hne Heq; apply Hne.
  - apply string_append_cancel_r in Heq. now subst.
  - apply string_append_cancel_l, number_to_string_inj in Heq. now subst.
Qed.

Lemma getCourseUID_separates_one_field_witness :
  getCourseUID (mkCourseInfo 2500 "CS") <> getCourseUID (mkCourseInfo 2500 "DS").
Proof.
  apply (getCourseUID_separates_one_field
           (mkCourseInfo 2500 "CS") (mkCourseInfo 2500 "DS")).
  - left. reflexivity.
  - discriminate.
Defined.

(** X6. Among courses whose subject has no digit and no minus sign,
    [getCourseUID] gives different courses different UIDs. *)
Theorem getCourseUID_injective_on_plain_subjects (c1 c2 : CourseInfo) :
  free_of_number_chars (subject c1) = true ->
  free_of_number_chars (subject c2) = true ->
  c1 <> c2 ->
  getCourseUID c1 <> getCourseUID c2.
Proof.
  destruct c1 as [n1 s1], c2 as [n2 s2]. unfold getCourseUID. simpl.
  intros H1 H2 Hne Heq. apply Hne.
  destruct (subject_number_split s1 s2 _ _ H1 H2
              (number_to_string_chars n1) (number_to_string_chars n2) Heq)
    as [-> Hn].
  apply number_to_string_inj in Hn. now subst.
Qed.

Lemma getCourseUID_injective_on_plain_subjects_witness :
  getCourseUID (mkCourseInfo 11 "CS") <> getCourseUID (mkCourseInfo 1 "MATH").
Proof.
  apply (getCourseUID_injective_on_plain_subjects
           (mkCourseInfo 11 "CS") (mkCourseInfo 1 "MATH")).
  - reflexivity.
  - reflexivity.
  - discriminate.
Defined.

(* ===================================================================== *)
(** ** What the resolver returns *)
(* ===================================================================== *)

Lemma array_filter_throw l : forall m e,
  array_filter filter_callback l m = Throw e -> e = unexpected_structure.
Proof.
  induction l as [|c rest IH]; intros m e H; [discriminate|].
  rewrite array_filter_cons in H.
  destruct (isPreReqSatisfied (prereqs c) m) as [[|]|e'] eqn:Hsat.
  - eauto.
  - destruct (array_filter filter_callback rest m) as [[? ?]|e'] eqn:E;
      [discriminate|]. injection H as ->. eauto.
  - injection H as ->. eapply isPreReqSatisfied_throw; eauto.
Qed.

Lemma rounds_throw_error n st k e :
  rounds n st k (Throw e) -> e = unexpected_structure.
Proof.
  remember (Throw e) as r eqn:Hr.
  induction 1 as [st Hc | st e' Hc Hb | st st' k r Hc Hb _ IH];
    [discriminate | | auto].
  injection Hr as ->. unfold loop_body in Hb.
  destruct (array_filter filter_callback (courses st) (takenCoursesMap st))
    as [[r m]|e'] eqn:Hscan; [discriminate|].
  injection Hb as ->. eapply array_filter_throw; eauto.
Qed.

(** The state in which the loop exits, for each outcome of the
    resolver. *)
Lemma determineMajorPlan_cases cs :
  exists k,
    match determineMajorPlan cs with
    | Normal (Some plan) =>
        exists st, rounds (length cs) (initial_state cs) k (Normal st) /\
                   solutionIsPossible st = true /\
                   plan = JSMap.values (takenCoursesMap st)
    | Normal None =>
        exists st, rounds (length cs) (initial_state cs) k (Normal st) /\
                   solutionIsPossible st = false
    | Throw e => rounds (length cs) (initial_state cs) k (Throw e)
    end.
Proof.
  destruct (while_loop_rounds (length cs) (initial_state cs)) as [k Hk].
  exists k. rewrite determineMajorPlan_eq.
  destruct (while_loop (length cs) (initial_state cs)) as [st|e]; auto.
  destruct (solutionIsPossible st) eqn:Hp; eauto.
Qed.

(** X7. The resolver throws nothing but the evaluator's error, and
    only when some prerequisite of the input has a tag other than
    ["and"] and ["or"]. *)
Theorem resolver_throws_only_malformed (cs : list Course) (e : Error) :
  determineMajorPlan cs = Throw e ->
  e = unexpected_structure /\ all_well_formed cs = false.
Proof.
  intros H. split.
  - destruct (determineMajorPlan_cases cs) as [k Hk]. rewrite H in Hk.
    eapply rounds_throw_error; eauto.
  - destruct (all_well_formed cs) eqn:Hwf; auto.
    destruct (well_formed_returns cs Hwf) as [r Hr]. congruence.
Qed.

Lemma resolver_throws_only_malformed_witness :
  unexpected_structure = unexpected_structure /\
  all_well_formed
    [ mkCourse (CS 1) (mkPreReq AND []);
      mkCourse (CS 2) (mkPreReq AND [PreReqNode (mkPreReq "not" [])]) ]
  = false.
Proof.
  apply (resolver_throws_only_malformed
           [ mkCourse (CS 1) (mkPreReq AND []);
             mkCourse (CS 2)
               (mkPreReq AND [PreReqNode (mkPreReq "not" [])]) ]).
  reflexivity.
Defined.

(** A list with a repeated UID yields no plan. *)
Lemma repeated_uid_no_plan cs : ~ NoDup (uids cs) -> no_plan cs.
Proof.
  intros Hdup. unfold no_plan.
  destruct (determineMajorPlan_cases cs) as [k Hk].
  destruct (determineMajorPlan cs) as [[plan|]|e]; auto.
  - exfalso. destruct Hk as (st & Hr & Hp & _).
    destruct (rounds_invariant (length cs) (keys_inv cs)) with (2 := Hr)
      as [Hinv Hc].
    + intros s s' HI _ Hb. eapply keys_inv_step; eauto.
    + apply keys_inv_initial.
    + unfold loop_cond in Hc.
      rewrite (keys_inv_not_all_taken cs st Hdup Hinv), Hp in Hc.
      discriminate.
  - right. f_equal. eapply rounds_throw_error; eauto.
Qed.

(** A returned plan is the list of values of a justified map that
    holds the input courses, whose UIDs are pairwise distinct. *)
Lemma returned_plan_justified cs plan :
  determineMajorPlan cs = Normal (Some plan) ->
  NoDup (uids cs) /\
  exists m, plan = JSMap.values m /\ justified m /\
            Permutation (JSMap.values m) cs.
Proof.
  intros H.
  assert (Hnd : NoDup (uids cs)).
  { destruct (NoDup_dec string_dec (uids cs)) as [Hnd|Hdup]; auto.
    destruct (repeated_uid_no_plan cs Hdup); congruence. }
  split; auto.
  destruct (determineMajorPlan_cases cs) as [k Hk]. rewrite H in Hk.
  destruct Hk as (st & Hr & Hp & ->).
  destruct (rounds_invariant (length cs) (plan_inv cs)) with (2 := Hr)
    as [Hinv Hc].
  - intros s s' HI _ Hb. eapply plan_inv_step; eauto.
  - apply plan_inv_initial.
  - exists (takenCoursesMap st).
    pose proof (plan_inv_count cs st Hinv) as Hcount.
    destruct Hinv as [Hj Hperm].
    unfold loop_cond, areAllCoursesTaken in Hc.
    rewrite Hp, andb_true_r in Hc.
    apply negb_false_iff, Nat.eqb_eq in Hc.
    assert (Hnil : courses st = []) by (apply length_zero_iff_nil; lia).
    rewrite Hnil, app_nil_r in Hperm.
    repeat split; auto. now apply Permutation_sym.
Qed.

(** X8. Every plan the resolver returns is sound, on any input: the
    UIDs of the input are pairwise distinct, the plan is a permutation
    of the input, every course has its prerequisite satisfied by the
    courses before it, and a course comes after every course it
    requires through ["and"] nodes, directly or through other
    courses. *)
Theorem returned_plan_sound (cs plan : list Course) :
  determineMajorPlan cs = Normal (Some plan) ->
  NoDup (uids cs) /\
  valid_order cs plan /\
  forall c d, clos_trans Course (requires cs) c d -> earlier plan d c.
Proof.
  intros H.
  destruct (returned_plan_justified cs plan H) as (Hnd & m & -> & Hj & Hp).
  pose proof (justified_satisfied_in_order m Hj) as Hsat.
  split; auto. split; [split; auto|].
  now apply requires_trans_earlier.
Qed.

Lemma returned_plan_sound_witness :
  NoDup (uids spec_example) /\
  valid_order spec_example
    [ mkCourse (CS 2) (mkPreReq AND []);
      mkCourse (CS 3) (mkPreReq OR [InfoValue (CS 2)]);
      mkCourse (CS 1) (mkPreReq AND [InfoValue (CS 2); InfoValue (CS 3)]) ] /\
  forall c d,
    clos_trans Course (requires spec_example) c d ->
    earlier
      [ mkCourse (CS 2) (mkPreReq AND []);
        mkCourse (CS 3) (mkPreReq OR [InfoValue (CS 2)]);
        mkCourse (CS 1) (mkPreReq AND [InfoValue (CS 2); InfoValue (CS 3)]) ]
      d c.
Proof.
  apply (returned_plan_sound spec_example). reflexivity.
Defined.

(* ===================================================================== *)
(** ** Inputs that have a valid order *)
(* ===================================================================== *)

Lemma satisfied_from_sound l : forall l0,
  satisfied_from (map entry l0) l = true ->
  forall l1 c l2, l = l1 ++ c :: l2 ->
  isPreReqSatisfied (prereqs c) (map entry (l0 ++ l1)) = Normal true.
Proof.
  induction l as [|x l IH]; intros l0 H l1 c l2 Hsplit.
  - destruct l1; discriminate.
  - simpl in H.
    destruct (isPreReqSatisfied (prereqs x) (map entry l0)) as [[|]|e] eqn:Hx;
      try discriminate.
    destruct l1 as [|y l1]; simpl in Hsplit; injection Hsplit as <- ->.
    + now rewrite app_nil_r.
    + replace (l0 ++ x :: l1) with ((l0 ++ [x]) ++ l1)
        by now rewrite <- app_assoc.
      apply (IH (l0 ++ [x])) with (l2 := l2); auto.
      now rewrite map_app.
Qed.

Lemma satisfied_from_in_order l :
  satisfied_from JSMap.empty l = true -> satisfied_in_order l.
Proof.
  intros H l1 c l2 Hsplit.
  apply (satisfied_from_sound l [] H l1 c l2 Hsplit).
Qed.

(** A scan that meets a satisfied course promotes a course. *)
Lemma array_filter_progress l : forall m r m' (c : Course),
  In c l -> isPreReqSatisfied (prereqs c) m = Normal true ->
  array_filter filter_callback l m = Normal (r, m') ->
  length r < length l.
Proof.
  induction l as [|x rest IH]; intros m r m' c Hin Hc H; [destruct Hin|].
  scan_head x m H.
  - apply array_filter_length in H. simpl. lia.
  - destruct Hin as [->|Hin]; [congruence|].
    specialize (IH _ _ _ c Hin Hc Hrest). simpl. lia.
Qed.

(** The first course of a list that is not in the map. *)
Lemma first_untaken m (q : list Course) :
  (exists c : Course, In c q /\ JSMap.has (getCourseUID c) m = false) ->
  exists q1 (c : Course) q2,
    q = q1 ++ c :: q2 /\ JSMap.has (getCourseUID c) m = false /\
    forall d : Course, In d q1 -> JSMap.has (getCourseUID d) m = true.
Proof.
  induction q as [|x q IH]; intros (c & Hin & Hc); [destruct Hin|].
  destruct (JSMap.has (getCourseUID x) m) eqn:Hx.
  - destruct IH as (q1 & c' & q2 & -> & Hc' & Hq1).
    { destruct Hin as [->|Hin]; [congruence|eauto]. }
    exists (x :: q1), c', q2. repeat split; auto.
    intros d [<-|Hd]; auto.
  - exists [], x, q. repeat split; auto.
Qed.

(** When every scan of a non-empty remaining list promotes a course,
    the loop takes all courses. *)
Lemma progress_gives_plan cs :
  NoDup (uids cs) ->
  all_well_formed cs = true ->
  (forall st r m,
     plan_inv cs st -> courses st <> [] ->
     array_filter filter_callback (courses st) (takenCoursesMap st)
       = Normal (r, m) ->
     length r < length (courses st)) ->
  exists m,
    determineMajorPlan cs = Normal (Some (JSMap.values m)) /\
    justified m /\ Permutation (JSMap.values m) cs.
Proof.
  intros Hnd Hwf Hprogress.
  assert (Hloop : forall w st,
            length (courses st) = w ->
            plan_inv cs st -> solutionIsPossible st = true ->
            exists st_f,
              while_loop (length cs) st = Normal st_f /\
              plan_inv cs st_f /\ solutionIsPossible st_f = true /\
              courses st_f = []).
  { induction w as [w IH] using lt_wf_ind. intros st Hw Hinv Hposs.
    rewrite while_loop_eq.
    destruct (loop_cond (length cs) st) eqn:Hc.
    - pose proof (plan_inv_remaining cs st Hinv Hc) as Hpos.
      destruct (loop_body_no_throw st) as [st' Hb].
      { eapply all_well_formed_incl; eauto.
        now apply plan_inv_remaining_incl. }
      rewrite Hb.
      pose proof (plan_inv_step cs st st' Hnd Hinv Hb) as Hinv'.
      apply loop_body_inv in Hb as (r & m & Hscan & ->).
      assert (Hlt : length r < length (courses st)).
      { eapply Hprogress; eauto.
        intros E. rewrite E in Hpos. simpl in Hpos. lia. }
      apply (IH (length r)); auto; try lia.
      simpl. now apply Nat.ltb_lt.
    - exists st.
      split; [reflexivity|]. split; [exact Hinv|]. split; [exact Hposs|].
      unfold loop_cond in Hc. rewrite Hposs, andb_true_r in Hc.
      apply negb_false_iff, Nat.eqb_eq in Hc.
      pose proof (plan_inv_count cs st Hinv) as Hcount.
      apply length_zero_iff_nil. lia. }
  destruct (Hloop (length cs) (initial_state cs))
    as (st_f & Hw & [Hj Hp] & Hposs & Hnil); auto.
  - apply plan_inv_initial.
  - exists (takenCoursesMap st_f).
    rewrite determineMajorPlan_eq, Hw, Hposs.
    repeat split; auto.
    rewrite Hnil, app_nil_r in Hp. now apply Permutation_sym.
Qed.

(** With a valid order at hand, the first course of that order that is
    not yet taken is satisfied, so the scan promotes a course. *)
Lemma valid_order_progress cs q st r m :
  NoDup (uids cs) -> all_well_formed cs = true -> valid_order cs q ->
  plan_inv cs st -> courses st <> [] ->
  array_filter filter_callback (courses st) (takenCoursesMap st)
    = Normal (r, m) ->
  length r < length (courses st).
Proof.
  intros Hnd Hwf [Hperm Hsat] Hinv Hne Hscan.
  pose proof (plan_inv_NoDup cs st Hnd Hinv) as Hnd'.
  pose proof (plan_inv_remaining_incl cs st Hinv) as Hincl.
  destruct Hinv as [Hj Hp].
  assert (Huntaken : forall c : Course, In c (courses st) ->
            JSMap.has (getCourseUID c) (takenCoursesMap st) = false).
  { intros c Hc. apply has_false_not_In. intros Hk.
    apply in_split in Hc as (a & b & Hc). rewrite Hc, uids_app in Hnd'.
    simpl in Hnd'. rewrite app_assoc in Hnd'.
    apply NoDup_remove_2 in Hnd'. apply Hnd'.
    apply in_app_iff. left. apply in_app_iff. auto. }
  destruct (first_untaken (takenCoursesMap st) q)
    as (q1 & c & q2 & Hq & Hc & Hq1).
  { destruct (courses st) as [|c0 rest] eqn:E; [congruence|].
    exists c0. split.
    - apply (Permutation_in _ (Permutation_sym Hperm)). apply Hincl.
      simpl. auto.
    - apply Huntaken. simpl. auto. }
  assert (Hccs : In c cs).
  { apply (Permutation_in _ Hperm). rewrite Hq. apply in_app_iff.
    simpl. auto. }
  assert (Hcrem : In c (courses st)).
  { apply (Permutation_in _ Hp) in Hccs.
    apply in_app_iff in Hccs as [Hcm|]; auto.
    exfalso. apply has_false_not_In in Hc. apply Hc.
    rewrite (justified_keys _ Hj). now apply In_uids. }
  apply (array_filter_progress (courses st) (takenCoursesMap st) r m c Hcrem);
    [|exact Hscan].
  apply (isPreReqSatisfied_monotone (map entry q1)).
  - intros k Hk. apply has_In_keys in Hk. rewrite keys_entries in Hk.
    apply In_uids_inv in Hk as (d & <- & Hd). auto.
  - apply well_formed_never_raises.
    unfold all_well_formed in Hwf. rewrite forallb_forall in Hwf. auto.
  - eapply Hsat; eauto.
Qed.

Lemma valid_order_gives_plan cs q :
  NoDup (uids cs) -> all_well_formed cs = true -> valid_order cs q ->
  exists plan,
    determineMajorPlan cs = Normal (Some plan) /\ valid_order cs plan.
Proof.
  intros Hnd Hwf Hq.
  destruct (progress_gives_plan cs Hnd Hwf) as (m & Hplan & Hj & Hp).
  - intros st r m. now apply valid_order_progress with q.
  - exists (JSMap.values m). split; auto. split; auto.
    now apply justified_satisfied_in_order.
Qed.

(** X9. The resolver is complete on inputs with pairwise distinct UIDs
    and well-formed tags: if some order of the input puts every course
    after courses that satisfy its prerequisite, the resolver returns a
    plan, which is such an order too. *)
Theorem resolver_complete (cs q : list Course) :
  NoDup (uids cs) ->
  all_well_formed cs = true ->
  Permutation q cs ->
  satisfied_in_order q ->
  exists plan,
    determineMajorPlan cs = Normal (Some plan) /\
    Permutation plan cs /\ satisfied_in_order plan.
Proof.
  intros Hnd Hwf Hperm Hsat.
  destruct (valid_order_gives_plan cs q Hnd Hwf (conj Hperm Hsat))
    as (plan & Hplan & Hp & Hs).
  eauto.
Qed.

Lemma resolver_complete_witness :
  exists plan,
    determineMajorPlan spec_example = Normal (Some plan) /\
    Permutation plan spec_example /\ satisfied_in_order plan.
Proof.
  apply (resolver_complete spec_example
           [ mkCourse (CS 2) (mkPreReq AND []);
             mkCourse (CS 3) (mkPreReq OR [InfoValue (CS 2)]);
             mkCourse (CS 1)
               (mkPreReq AND [InfoValue (CS 2); InfoValue (CS 3)]) ]).
  - unfold spec_example. solve_NoDup.
  - reflexivity.
  - unfold spec_example. apply Permutation_sym.
    apply (Permutation_cons_app [_; _] []). apply Permutation_refl.
  - apply satisfied_from_in_order. reflexivity.
Defined.

(** X10. On an input with pairwise distinct UIDs and well-formed tags,
    [null] is returned exactly when no order of the input puts every
    course after courses that satisfy its prerequisite. *)
Theorem null_iff_no_valid_order (cs : list Course) :
  NoDup (uids cs) ->
  all_well_formed cs = true ->
  determineMajorPlan cs = Normal None <->
  ~ exists q, Permutation q cs /\ satisfied_in_order q.
Proof.
  intros Hnd Hwf. split.
  - intros Hnull (q & Hq).
    destruct (valid_order_gives_plan cs q Hnd Hwf Hq) as (plan & Hplan & _).
    congruence.
  - intros Hnone.
    destruct (well_formed_returns cs Hwf) as [[plan|] Hr]; auto.
    exfalso. apply Hnone.
    destruct (returned_plan_justified cs plan Hr) as (_ & m & -> & Hj & Hp).
    exists (JSMap.values m). split; auto.
    now apply justified_satisfied_in_order.
Qed.

Lemma null_iff_no_valid_order_witness :
  determineMajorPlan
    [ mkCourse (CS 1) (mkPreReq AND [InfoValue (CS 2)]);
      mkCourse (CS 2) (mkPreReq OR [InfoValue (CS 1); InfoValue (CS 3)]) ]
    = Normal None <->
  ~ exists q,
      Permutation q
        [ mkCourse (CS 1) (mkPreReq AND [InfoValue (CS 2)]);
          mkCourse (CS 2)
            (mkPreReq OR [InfoValue (CS 1); InfoValue (CS 3)]) ] /\
      satisfied_in_order q.
Proof.
  apply (null_iff_no_valid_order
           [ mkCourse (CS 1) (mkPreReq AND [InfoValue (CS 2)]);
             mkCourse (CS 2)
               (mkPreReq OR [InfoValue (CS 1); InfoValue (CS 3)]) ]).
  - solve_NoDup.
  - reflexivity.
Defined.

Lemma all_well_formed_perm cs cs' :
  Permutation cs cs' -> all_well_formed cs = true ->
  all_well_formed cs' = true.
Proof.
  unfold all_well_formed. rewrite !forallb_forall.
  intros Hp H c Hc. apply H.
  now apply (Permutation_in _ (Permutation_sym Hp)).
Qed.

Lemma uids_perm cs cs' :
  Permutation cs cs' -> Permutation (uids cs) (uids cs').
Proof. unfold uids. apply Permutation_map. Qed.

(** X11. Whether a plan is found does not depend on the order of the
    input: when the resolver returns a plan for an input with
    well-formed tags, it returns a plan for every reordering of that
    input, with the same courses. *)
Theorem solvable_in_any_input_order (cs cs' plan : list Course) :
  all_well_formed cs = true ->
  Permutation cs cs' ->
  determineMajorPlan cs = Normal (Some plan) ->
  exists plan',
    determineMajorPlan cs' = Normal (Some plan') /\ Permutation plan' plan.
Proof.
  intros Hwf Hperm Hplan.
  destruct (returned_plan_justified cs plan Hplan)
    as (Hnd & m & -> & Hj & Hp).
  destruct (valid_order_gives_plan cs' (JSMap.values m))
    as (plan' & Hplan' & Hp' & _).
  - eapply Permutation_NoDup; [apply uids_perm; exact Hperm | exact Hnd].
  - eapply all_well_formed_perm; eauto.
  - split.
    + eapply Permutation_trans; eauto.
    + now apply justified_satisfied_in_order.
  - exists plan'. split; auto.
    eapply Permutation_trans; [exact Hp'|].
    eapply Permutation_trans; [apply Permutation_sym; exact Hperm|].
    now apply Permutation_sym.
Qed.

Lemma solvable_in_any_input_order_witness :
  exists plan',
    determineMajorPlan (rev spec_example) = Normal (Some plan') /\
    Permutation plan'
      [ mkCourse (CS 2) (mkPreReq AND []);
        mkCourse (CS 3) (mkPreReq OR [InfoValue (CS 2)]);
        mkCourse (CS 1)
          (mkPreReq AND [InfoValue (CS 2); InfoValue (CS 3)]) ].
Proof.
  apply (solvable_in_any_input_order spec_example (rev spec_example)).
  - reflexivity.
  - apply Permutation_rev.
  - reflexivity.
Defined.

(** The scan of a list that is in a valid order, after the courses
    before it, promotes every course in turn. *)
Lemma array_filter_in_order l : forall l0,
  NoDup (uids (l0 ++ l)) ->
  satisfied_in_order (l0 ++ l) ->
  array_filter filter_callback l (map entry l0)
    = Normal ([], map entry (l0 ++ l)).
Proof.
  induction l as [|c rest IH]; intros l0 Hnd Hsat.
  - now rewrite app_nil_r.
  - rewrite array_filter_cons, (Hsat l0 c rest eq_refl).
    rewrite set_fresh.
    + change [(getCourseUID c, c)] with (map entry [c]).
      rewrite <- map_app.
      replace (l0 ++ c :: rest) with ((l0 ++ [c]) ++ rest)
        by now rewrite <- app_assoc.
      apply IH; rewrite <- app_assoc; auto.
    + apply has_false_not_In. rewrite keys_entries.
      rewrite uids_app in Hnd. simpl in Hnd.
      apply NoDup_remove_2 in Hnd. intros Hin. apply Hnd.
      apply in_app_iff. auto.
Qed.

(** An input that is in a valid order is taken in one round. *)
Lemma valid_input_one_round cs :
  NoDup (uids cs) -> satisfied_in_order cs ->
  rounds (length cs) (initial_state cs) (Nat.min 1 (length cs))
    (Normal {| courses := [];
               takenCoursesMap := map entry cs;
               solutionIsPossible := true |}).
Proof.
  intros Hnd Hsat.
  destruct cs as [|c cs]; [apply rounds_exit; reflexivity|].
  change (Nat.min 1 (length (c :: cs))) with 1.
  eapply rounds_next.
  - reflexivity.
  - unfold loop_body, initial_state. cbn [courses takenCoursesMap].
    change JSMap.empty with (map entry []).
    rewrite (array_filter_in_order (c :: cs) []); auto.
  - apply rounds_exit. unfold loop_cond, areAllCoursesTaken, JSMap.size.
    cbn [takenCoursesMap solutionIsPossible].
    rewrite length_map, Nat.eqb_refl. reflexivity.
Qed.

Lemma valid_input_returned cs :
  NoDup (uids cs) -> satisfied_in_order cs ->
  determineMajorPlan cs = Normal (Some cs).
Proof.
  intros Hnd Hsat. rewrite determineMajorPlan_eq.
  rewrite (rounds_while_loop _ _ _ _ (valid_input_one_round cs Hnd Hsat)).
  simpl. now rewrite values_entries.
Qed.

(** X12. An input with pairwise distinct UIDs that is already in a
    valid order (every course after courses that satisfy its
    prerequisite) is returned unchanged, after a single round (no round
    for the empty input). *)
Theorem valid_input_order_kept (cs : list Course) :
  NoDup (uids cs) ->
  satisfied_in_order cs ->
  determineMajorPlan cs = Normal (Some cs) /\
  rounds (length cs) (initial_state cs) (Nat.min 1 (length cs))
    (Normal {| courses := [];
               takenCoursesMap := map entry cs;
               solutionIsPossible := true |}).
Proof.
  intros Hnd Hsat. split.
  - now apply valid_input_returned.
  - now apply valid_input_one_round.
Qed.

Lemma valid_input_order_kept_witness :
  let cs := [ mkCourse (CS 1) (mkPreReq AND []);
              mkCourse (CS 2) (mkPreReq AND [InfoValue (CS 1)]) ] in
  determineMajorPlan cs = Normal (Some cs) /\
  rounds (length cs) (initial_state cs) (Nat.min 1 (length cs))
    (Normal {| courses := [];
               takenCoursesMap := map entry cs;
               solutionIsPossible := true |}).
Proof.
  intros cs. apply (valid_input_order_kept cs).
  - unfold cs. solve_NoDup.
  - apply satisfied_from_in_order. reflexivity.
Defined.

(** X13. Resolving a returned plan again returns the same plan. *)
Theorem resolver_idempotent (cs plan : list Course) :
  determineMajorPlan cs = Normal (Some plan) ->
  determineMajorPlan plan = Normal (Some plan).
Proof.
  intros H.
  destruct (returned_plan_justified cs plan H) as (Hnd & m & -> & Hj & Hp).
  apply valid_input_returned.
  - eapply Permutation_NoDup; [|exact Hnd].
    apply uids_perm. now apply Permutation_sym.
  - now apply justified_satisfied_in_order.
Qed.

Lemma resolver_idempotent_witness :
  determineMajorPlan
    [ mkCourse (CS 2) (mkPreReq AND []);
      mkCourse (CS 3) (mkPreReq OR [InfoValue (CS 2)]);
      mkCourse (CS 1) (mkPreReq AND [InfoValue (CS 2); InfoValue (CS 3)]) ]
  = Normal (Some
    [ mkCourse (CS 2) (mkPreReq AND []);
      mkCourse (CS 3) (mkPreReq OR [InfoValue (CS 2)]);
      mkCourse (CS 1) (mkPreReq AND [InfoValue (CS 2); InfoValue (CS 3)]) ]).
Proof.
  apply (resolver_idempotent spec_example). reflexivity.
Defined.

(** X14. The empty plan is returned for the empty input and for no
    other. *)
Theorem empty_plan_iff_empty_input (cs : list Course) :
  determineMajorPlan cs = Normal (Some []) <-> cs = [].
Proof.
  split.
  - intros H.
    destruct (returned_plan_justified cs [] H) as (_ & m & Hm & _ & Hp).
    rewrite <- Hm in Hp. now apply Permutation_nil.
  - intros ->. reflexivity.
Qed.

(* ===================================================================== *)
(** ** Courses that can never be taken *)
(* ===================================================================== *)

Lemma size_set_le k v m : JSMap.size (JSMap.set k v m) <= S (JSMap.size m).
Proof.
  rewrite !size_keys, keys_set.
  destruct (JSMap.has k m); [lia|]. rewrite length_app. simpl. lia.
Qed.

Section blocked_courses.

Variable cs : list Course.

(** [P] holds of the UIDs that never enter the map and [B] of the
    courses that are never promoted: a course with a [P] UID is a [B]
    course, and a [B] course requires a [P] UID. *)
Variable P : CourseUID -> Prop.
Variable B : Course -> Prop.
Hypothesis P_blocked : forall c : Course,
  In c cs -> P (getCourseUID c) -> B c.
Hypothesis B_requires : forall c : Course,
  In c cs -> B c ->
  exists l, In l (required_leaves (prereqs c)) /\ P (getCourseUID l).

Lemma array_filter_blocked l : forall m r m',
  incl l cs ->
  (forall k, P k -> JSMap.has k m = false) ->
  array_filter filter_callback l m = Normal (r, m') ->
  (forall k, P k -> JSMap.has k m' = false) /\
  (forall c, In c l -> B c -> In c r) /\
  JSMap.size m' + length r <= JSMap.size m + length l.
Proof.
  induction l as [|c rest IH]; intros m r m' Hincl Hfree H.
  - injection H as <- <-. repeat split; auto.
  - assert (Hc : In c cs) by (apply Hincl; simpl; auto).
    assert (Hrest' : incl rest cs)
      by (intros x Hx; apply Hincl; simpl; auto).
    scan_head c m H.
    + assert (HnB : ~ B c).
      { intros HB. destruct (B_requires c Hc HB) as (l & Hl & HP).
        pose proof (required_leaves_taken _ _ Hsat l Hl) as Hhas.
        rewrite (Hfree _ HP) in Hhas. discriminate. }
      assert (Hfree' : forall k, P k ->
                JSMap.has k (JSMap.set (getCourseUID c) c m) = false).
      { intros k Hk. rewrite has_set, (Hfree k Hk), orb_false_r.
        apply String.eqb_neq. intros <-. apply HnB. auto. }
      destruct (IH _ _ _ Hrest' Hfree' H) as (H1 & H2 & H3).
      repeat split; auto.
      * intros x [<-|Hx] HB; [contradiction|auto].
      * pose proof (size_set_le (getCourseUID c) c m). simpl. lia.
    + destruct (IH _ _ _ Hrest' Hfree Hrest) as (H1 & H2 & H3).
      repeat split; auto.
      * intros x [<-|Hx] HB; simpl; auto.
      * simpl. lia.
Qed.

Lemma blocked_no_plan :
  (exists c, In c cs /\ B c) -> no_plan cs.
Proof.
  intros (c & Hc & HB). unfold no_plan.
  destruct (determineMajorPlan_cases cs) as [k Hk].
  destruct (determineMajorPlan cs) as [[plan|]|e]; auto.
  - exfalso. destruct Hk as (st & Hr & Hp & _).
    destruct (rounds_invariant (length cs) (blocked_inv cs P B))
      with (2 := Hr)
      as [(Hincl & Hfree & Hstay & Hsize) Hcond].
    + intros s s' (Hincl & Hfree & Hstay & Hsize) _ Hb.
      apply loop_body_inv in Hb as (r & m & Hscan & ->).
      destruct (array_filter_blocked _ _ _ _ Hincl Hfree Hscan)
        as (H1 & H2 & H3).
      repeat split; simpl; auto.
      * eapply incl_tran; [eapply array_filter_incl|]; eauto.
      * lia.
    + repeat split; simpl; auto. apply incl_refl.
    + unfold loop_cond, areAllCoursesTaken in Hcond.
      rewrite Hp, andb_true_r in Hcond.
      apply negb_false_iff, Nat.eqb_eq in Hcond.
      specialize (Hstay c Hc HB).
      destruct (courses st); [destruct Hstay|]. simpl in Hsize. lia.
  - right. f_equal. eapply rounds_throw_error; eauto.
Qed.

End blocked_courses.

Lemma clos_trans_cycle_step {X : Type} (R : X -> X -> Prop) x :
  clos_trans X R x x -> exists y, R x y /\ clos_trans X R y y.
Proof.
  intros H. apply clos_trans_t1n in H.
  inversion H as [y Hxy | y z Hxy Hyx]; subst.
  - exists x. split; auto. now apply t_step.
  - exists y. split; auto.
    apply clos_t1n_trans in Hyx.
    eapply t_trans; [exact Hyx | now apply t_step].
Qed.

(** X15. A cycle of requirements (references at leaves reached through
    ["and"] nodes only), of any length, leaves the resolver without a
    plan: it returns [null], unless a malformed tag makes the evaluator
    throw first. *)
Theorem required_cycle_no_plan (cs : list Course) (c : Course) :
  clos_trans Course (requires cs) c c ->
  determineMajorPlan cs = Normal None \/
  determineMajorPlan cs = Throw unexpected_structure.
Proof.
  intros Hcycle.
  destruct (NoDup_dec string_dec (uids cs)) as [Hnd|Hdup];
    [|now apply repeated_uid_no_plan].
  apply (blocked_no_plan cs
           (fun k => exists d : Course,
                       In d cs /\ getCourseUID d = k /\
                       clos_trans Course (requires cs) d d)
           (fun d => clos_trans Course (requires cs) d d)).
  - intros x Hx (d & Hd & Heq & Hdd).
    now rewrite <- (uid_injective_on cs d x Hnd Hd Hx Heq).
  - intros x Hx Hxx.
    destruct (clos_trans_cycle_step _ x Hxx) as (y & (_ & Hy & Hreq) & Hyy).
    apply in_map_iff in Hreq as (l & Hl & Hlreq).
    exists l. split; auto. exists y. auto.
  - exists c. split; auto.
    destruct (clos_trans_cycle_step _ c Hcycle) as (y & (Hc & _) & _). auto.
Qed.

Lemma required_cycle_no_plan_witness :
  let a := mkCourse (CS 1) (mkPreReq AND [InfoValue (CS 2)]) in
  let b := mkCourse (CS 2)
             (mkPreReq AND [PreReqNode (mkPreReq AND [InfoValue (CS 3)])]) in
  let c := mkCourse (CS 3) (mkPreReq AND [InfoValue (CS 1)]) in
  let d := mkCourse (CS 4) (mkPreReq AND []) in
  determineMajorPlan [d; a; b; c] = Normal None \/
  determineMajorPlan [d; a; b; c] = Throw unexpected_structure.
Proof.
  intros a b c d.
  apply (required_cycle_no_plan [d; a; b; c] a).
  apply t_trans with b; [|apply t_trans with c]; apply t_step;
    unfold requires; simpl; tauto.
Defined.

(** X16. A course that requires, at a leaf reached through ["and"]
    nodes only, a course whose UID no course of the input has, leaves
    the resolver without a plan: it returns [null], unless a malformed
    tag makes the evaluator throw first. *)
Theorem dangling_requirement_no_plan (cs : list Course) (c : Course)
  (l : CourseInfo) :
  In c cs ->
  In l (required_leaves (prereqs c)) ->
  ~ In (getCourseUID l) (uids cs) ->
  determineMajorPlan cs = Normal None \/
  determineMajorPlan cs = Throw unexpected_structure.
Proof.
  intros Hc Hl Habsent.
  apply (blocked_no_plan cs (fun k => k = getCourseUID l) (fun x => x = c)).
  - intros x Hx Heq. exfalso. apply Habsent. rewrite <- Heq.
    now apply In_uids.
  - intros x _ ->. eauto.
  - eauto.
Qed.

Lemma dangling_requirement_no_plan_witness :
  let cs := [ mkCourse (CS 1) (mkPreReq AND []);
              mkCourse (CS 2)
                (mkPreReq AND [InfoValue (CS 1); InfoValue (CS 9)]) ] in
  determineMajorPlan cs = Normal None \/
  determineMajorPlan cs = Throw unexpected_structure.
Proof.
  intros cs.
  apply (dangling_requirement_no_plan cs
           (mkCourse (CS 2)
              (mkPreReq AND [InfoValue (CS 1); InfoValue (CS 9)]))
           (CS 9)).
  - simpl. auto.
  - simpl. auto.
  - vm_compute. intuition discriminate.
Defined.

(* ===================================================================== *)
(** ** What a round does to the map *)
(* ===================================================================== *)





